(** * BadWolf: triples, their text format, reification, and statements

    A shallow embedding of [triple/triple.go] (package [triple]) and of the
    statement model of package [semantic], together with the properties
    the specification states about them.

    Go strings are byte sequences: they are modelled by [string], whose
    characters are the 256 byte values.  A pointer that may be nil is an
    [option]; dereferencing nil, indexing or slicing out of range are
    run-time panics and are modelled by an explicit [Panic] outcome. *)

From Stdlib Require Import Ascii String List NArith Lia Permutation Sorted Bool.
From stdpp Require Import base option list strings gmap sorting.

(* ===================================================================== *)
(** ** Go run-time notions shared by both packages                        *)
(* ===================================================================== *)

Module Go.

(** The outcome of a call returning [(T, error)]: a value, an error value,
    or a run-time panic. *)
Inductive result (E A : Type) : Type :=
| Ok (a : A)
| Err (e : E)
| Panic.
Arguments Ok {E A} a.
Arguments Err {E A} e.
Arguments Panic {E A}.

Definition bind {E A B} (r : result E A) (k : A -> result E B) : result E B :=
  match r with
  | Ok a => k a
  | Err e => Err e
  | Panic => Panic
  end.

Notation "x <- e ;; k" := (bind e (fun x => k))
  (at level 100, e at next level, right associativity).

(** The double quote, which string literals of this file never contain. *)
Definition dquote : ascii := ascii_of_nat 34.
Definition tab : ascii := ascii_of_nat 9.

Definition code (c : ascii) : N := N_of_ascii c.

Fixpoint bytes (s : string) : list N :=
  match s with
  | EmptyString => []
  | String c r => code c :: bytes r
  end.

Fixpoint of_bytes (l : list N) : string :=
  match l with
  | [] => EmptyString
  | b :: r => String (ascii_of_N b) (of_bytes r)
  end.

(** [len(s)] and the slice expression [s[lo:hi]], which panics ([None])
    unless [lo <= hi <= len(s)]. *)
Definition len (s : string) : nat := String.length s.

Definition slice (s : string) (lo hi : nat) : option string :=
  if (lo <=? hi) && (hi <=? len s) then Some (substring lo (hi - lo) s) else None.

Definition slice_from (s : string) (lo : nat) : option string :=
  slice s lo (len s).

(** *** [strings.TrimSpace]

    [TrimSpace] removes the leading and trailing runes for which
    [unicode.IsSpace] holds.  A rune decoded at either end of the string is
    such a rune exactly when the bytes there are its UTF-8 encoding, so the
    function is written on bytes: the six ASCII spaces, U+0085 and U+00A0
    (two bytes), and U+1680, U+2000..U+200A, U+2028, U+2029, U+202F,
    U+205F, U+3000 (three bytes). *)
Definition space1 (a : N) : bool :=
  ((9 <=? a) && (a <=? 13) || (a =? 32))%N.

Definition space2 (a b : N) : bool :=
  ((a =? 194) && ((b =? 133) || (b =? 160)))%N.

Definition space3 (a b c : N) : bool :=
  ((a =? 225) && (b =? 154) && (c =? 128)
   || (a =? 226) && (b =? 128)
        && ((128 <=? c) && (c <=? 138) || (c =? 168) || (c =? 169) || (c =? 175))
   || (a =? 226) && (b =? 129) && (c =? 159)
   || (a =? 227) && (b =? 128) && (c =? 128))%N.

Fixpoint trim_left (l : list N) : list N :=
  match l with
  | [] => []
  | a :: l1 =>
    if space1 a then trim_left l1 else
    match l1 with
    | [] => l
    | b :: l2 =>
      if space2 a b then trim_left l2 else
      match l2 with
      | [] => l
      | c :: l3 => if space3 a b c then trim_left l3 else l
      end
    end
  end.

(** The same from the end, on the reversed bytes. *)
Fixpoint trim_right_rev (l : list N) : list N :=
  match l with
  | [] => []
  | a :: l1 =>
    if space1 a then trim_right_rev l1 else
    match l1 with
    | [] => l
    | b :: l2 =>
      if space2 b a then trim_right_rev l2 else
      match l2 with
      | [] => l
      | c :: l3 => if space3 c b a then trim_right_rev l3 else l
      end
    end
  end.

Definition TrimSpace (s : string) : string :=
  of_bytes (rev (trim_right_rev (rev (trim_left (bytes s))))).

(** *** The two regular expressions of [ParseTriple]

    Both patterns have the shape "one opening byte, [\s+], one closing
    byte": [>\s+"] and [(]\s+/)|(]\s+")], where RE2's [\s] is
    [[\t\n\f\r ]].  From a given start such a pattern has at most one
    match, so the leftmost match [FindIndex] reports is the match at the
    first position that has one. *)
Record Regexp := { re_open : ascii; re_close : list ascii }.

Definition re_space (c : ascii) : bool :=
  let a := code c in
  ((a =? 9) || (a =? 10) || (a =? 12) || (a =? 13) || (a =? 32))%N.

Definition closes (re : Regexp) (c : ascii) : bool :=
  existsb (Ascii.eqb c) (re_close re).

(** After the opening byte and [seen] spaces: the number of bytes up to
    and including the closing byte. *)
Fixpoint match_tail (re : Regexp) (seen : bool) (s : string) : option nat :=
  match s with
  | EmptyString => None
  | String c r =>
    if re_space c then S <$> match_tail re true r
    else if seen && closes re c then Some 1
    else None
  end.

(** The length of the match that starts at the head of [s]. *)
Definition match_here (re : Regexp) (s : string) : option nat :=
  match s with
  | EmptyString => None
  | String c r =>
    if Ascii.eqb c (re_open re) then S <$> match_tail re false r else None
  end.

Fixpoint find_from (re : Regexp) (i : nat) (s : string) : option (nat * nat) :=
  match match_here re s with
  | Some k => Some (i, i + k)
  | None =>
    match s with
    | EmptyString => None
    | String _ r => find_from re (S i) r
    end
  end.

(** [re.FindIndex([]byte(s))]: the bounds of the leftmost match, [None]
    for the nil slice returned when there is none. *)
Definition FindIndex (re : Regexp) (s : string) : option (nat * nat) :=
  find_from re 0 s.

(** What it is for the pattern to match the bytes [i .. j-1] of [s]: the
    opening byte at [i], then one or more [\s], then a closing byte. *)
Fixpoint all_space (ws : string) : bool :=
  match ws with
  | EmptyString => true
  | String c r => re_space c && all_space r
  end.

Definition Matches (re : Regexp) (s : string) (i j : nat) : Prop :=
  exists pre ws c post,
    s = pre +:+ String (re_open re) (ws +:+ String c post)
    /\ len pre = i /\ ws <> EmptyString /\ all_space ws = true
    /\ closes re c = true /\ j = i + 1 + len ws + 1.

(** No closing byte of the pattern is itself a [\s]. *)
Definition re_wf (re : Regexp) : bool :=
  forallb (fun c => negb (re_space c)) (re_close re).

(** A byte that is neither [\s] nor a closing byte ends any attempt to
    match that reaches it. *)
Definition barrier (re : Regexp) (c : ascii) : bool :=
  negb (re_space c) && negb (closes re c).

Definition first (s : string) : option ascii :=
  match s with
  | EmptyString => None
  | String c _ => Some c
  end.

Fixpoint last (s : string) : option ascii :=
  match s with
  | EmptyString => None
  | String c EmptyString => Some c
  | String _ r => last r
  end.

(** *** [base64.StdEncoding.EncodeToString] *)
Definition alphabet : string :=
  "ABCDEFGHIJKLMNOPQRSTUVWXYZabcdefghijklmnopqrstuvwxyz0123456789+/".

Definition digit (v : N) : ascii :=
  match String.get (N.to_nat (N.land v 63)) alphabet with
  | Some c => c
  | None => "="%char
  end.

Fixpoint encode (l : list N) : string :=
  match l with
  | [] => EmptyString
  | [a] =>
    let v := N.shiftl a 16 in
    String (digit (N.shiftr v 18)) (String (digit (N.shiftr v 12)) "==")
  | [a; b] =>
    let v := N.lor (N.shiftl a 16) (N.shiftl b 8) in
    String (digit (N.shiftr v 18)) (String (digit (N.shiftr v 12))
      (String (digit (N.shiftr v 6)) "="))
  | a :: b :: c :: r =>
    let v := N.lor (N.lor (N.shiftl a 16) (N.shiftl b 8)) c in
    String (digit (N.shiftr v 18)) (String (digit (N.shiftr v 12))
      (String (digit (N.shiftr v 6)) (String (digit v) (encode r))))
  end.

Definition EncodeToString (s : string) : string := encode (bytes s).

(** The place of a character in a text, counted from 0; the length of the
    text when it is not there.  In the alphabet it is the value of a
    digit, and 64 for any other character. *)
Fixpoint position (c : ascii) (s : string) : N :=
  match s with
  | EmptyString => 0
  | String x r => if Ascii.eqb c x then 0 else N.succ (position c r)
  end.

Definition digit_value (c : ascii) : N := position c alphabet.

End Go.

(* ===================================================================== *)
(** ** Package [triple]                                                    *)
(* ===================================================================== *)

Module Triple.
Import Go.

(** *** The collaborating packages [node], [predicate], [literal] *)

Inductive PredicateType := Immutable | Temporal.

(** Modelled from the spec: the predicate of package [predicate], which is
    not among the sources: "relation identifier with an ID and a type tag
    {Immutable, Temporal}; if Temporal, carries a time anchor (instant)".
    The tag is Temporal exactly when an anchor is held. *)
Record Predicate (T : Type) := mkPredicate { pred_id : string; pred_anchor : option T }.
Arguments mkPredicate {T} _ _.
Arguments pred_id {T} _.
Arguments pred_anchor {T} _.

(** What [triple.go] imports.  A call that returns no error returns a
    pointer that is not nil; errors of the three packages are carried by
    their message.  [NewBlankNode] draws the node from a supply, which
    stands for the generator behind it. *)
Class Collaborators := {
  Node : Type;
  Literal : Type;
  time_Time : Type;
  BlankSupply : Type;
  node_String : Node -> string;
  node_Parse : string -> Node + string;
  NewBlankNode : BlankSupply -> Node * BlankSupply;
  literal_String : Literal -> string;
  predicate_String : Predicate time_Time -> string;
  predicate_Parse : string -> Predicate time_Time + string;
  NewImmutable : string -> Predicate time_Time + string;
  NewTemporal : string -> time_Time -> Predicate time_Time + string;
}.

(** [literal.Builder], the interface value handed to the parsers, through
    its one method used here, [Parse]. *)
Definition Builder `{Collaborators} : Type := string -> Literal + string.

Section Model.
Context `{C : Collaborators}.

Local Abbreviation Pred := (Predicate time_Time).

(** Modelled from the spec: the methods [Type], [ID] and [TimeAnchor] of a
    predicate, which read the tag, the ID and the anchor it carries. *)
Definition Type_ (p : Pred) : PredicateType :=
  match pred_anchor p with Some _ => Temporal | None => Immutable end.

Definition ID (p : Pred) : string := pred_id p.

(** Modelled from the spec: [p.TimeAnchor()] gives the anchor, or an error
    for an immutable predicate. *)
Definition TimeAnchor (p : Pred) : time_Time + string :=
  match pred_anchor p with
  | Some t => inl t
  | None => inr "predicate.TimeAnchor cannot return anchor for immutable predicate"%string
  end.

(** *** Object *)

(** [type Object struct { n *node.Node; p *predicate.Predicate; l *literal.Literal }] *)
Record Object := mkObject {
  obj_n : option Node;
  obj_p : option Pred;
  obj_l : option Literal;
}.

Inductive Variant := VNode | VPredicate | VLiteral.

Inductive Role := Subject | PredicateRole | ObjectRole.

(** One constructor for each [fmt.Errorf] of the package, and one for the
    error values received from the collaborators. *)
Inductive error :=
| ErrExternal (msg : string)
| ErrNotBoxed (v : Variant) (o : string)
| ErrNilComponents (s p o : string)
| ErrSplit (raw : string)
| ErrParse (r : Role) (text : string) (cause : error).

Local Abbreviation res := (result error).

Definition INVALID_OBJECT : string := "@@@INVALID_OBJECT@@@".

Definition Object_String (o : Object) : string :=
  match obj_n o with
  | Some n => node_String n
  | None =>
    match obj_l o with
    | Some l => literal_String l
    | None =>
      match obj_p o with
      | Some p => predicate_String p
      | None => INVALID_OBJECT
      end
    end
  end.

Definition Object_GUID (o : Object) : string :=
  let fo := INVALID_OBJECT in
  let fo := match obj_n o with Some _ => "node"%string | None => fo end in
  let fo := match obj_l o with Some _ => "literal"%string | None => fo end in
  let fo := match obj_p o with Some _ => "predicate"%string | None => fo end in
  EncodeToString (fo +:+ ":" +:+ Object_String o).

Definition Object_Node (o : Object) : res Node :=
  match obj_n o with
  | None => Err (ErrNotBoxed VNode (Object_String o))
  | Some n => Ok n
  end.

Definition Object_Predicate (o : Object) : res Pred :=
  match obj_p o with
  | None => Err (ErrNotBoxed VPredicate (Object_String o))
  | Some p => Ok p
  end.

Definition Object_Literal (o : Object) : res Literal :=
  match obj_l o with
  | None => Err (ErrNotBoxed VLiteral (Object_String o))
  | Some l => Ok l
  end.

Definition NewNodeObject (n : option Node) : Object :=
  {| obj_n := n; obj_p := None; obj_l := None |}.

Definition NewPredicateObject (p : option Pred) : Object :=
  {| obj_n := None; obj_p := p; obj_l := None |}.

Definition NewLiteralObject (l : option Literal) : Object :=
  {| obj_n := None; obj_p := None; obj_l := l |}.

Definition ParseObject (s : string) (b : Builder) : res Object :=
  match node_Parse s with
  | inr _ =>
    match b s with
    | inr _ =>
      match predicate_Parse s with
      | inr err => Err (ErrExternal err)
      | inl o => Ok (NewPredicateObject (Some o))
      end
    | inl l => Ok (NewLiteralObject (Some l))
    end
  | inl n => Ok (NewNodeObject (Some n))
  end.

(** The tag [GUID] puts before the colon. *)
Definition Object_tag (o : Object) : string :=
  let fo := INVALID_OBJECT in
  let fo := match obj_n o with Some _ => "node"%string | None => fo end in
  let fo := match obj_l o with Some _ => "literal"%string | None => fo end in
  let fo := match obj_p o with Some _ => "predicate"%string | None => fo end in
  fo.

(** The variants an object holds, in the order [String] tests them, and
    the invariant of the type: exactly one. *)
Definition held (o : Object) : list Variant :=
  (match obj_n o with Some _ => [VNode] | None => [] end) ++
  (match obj_l o with Some _ => [VLiteral] | None => [] end) ++
  (match obj_p o with Some _ => [VPredicate] | None => [] end).

Definition exactly_one_of (o : Object) : Prop := exists v, held o = [v].

Definition variant_tag (v : Variant) : string :=
  match v with
  | VNode => "node"
  | VLiteral => "literal"
  | VPredicate => "predicate"
  end.

Definition succeeds {A} (r : res A) : bool :=
  match r with Ok _ => true | _ => false end.

(** How many of the accessors [Node()], [Predicate()], [Literal()] return
    without error. *)
Definition successes (o : Object) : nat :=
  Nat.b2n (succeeds (Object_Node o)) + Nat.b2n (succeeds (Object_Predicate o))
  + Nat.b2n (succeeds (Object_Literal o)).

(** *** Triple *)

(** [type Triple struct { s *node.Node; p *predicate.Predicate; o *Object }] *)
Record Triple := mkTriple {
  t_s : option Node;
  t_p : option Pred;
  t_o : option Object;
}.

(** What [fmt] prints for a pointer with a [String] method under [%s] and
    [%v]: the method's result, and ["<nil>"] for a nil pointer, whose
    method call panics inside [fmt]. *)
Definition fmt_ptr {A} (str : A -> string) (x : option A) : string :=
  match x with Some a => str a | None => "<nil>"%string end.

Definition NewTriple (s : option Node) (p : option Pred) (o : option Object) : res Triple :=
  match s, p, o with
  | Some _, Some _, Some _ => Ok {| t_s := s; t_p := p; t_o := o |}
  | _, _, _ =>
    Err (ErrNilComponents (fmt_ptr node_String s) (fmt_ptr predicate_String p)
                          (fmt_ptr Object_String o))
  end.

(** The accessors [S], [P] and [O]. *)
Definition Triple_S (t : Triple) : option Node := t_s t.
Definition Triple_P (t : Triple) : option Pred := t_p t.
Definition Triple_O (t : Triple) : option Object := t_o t.

Definition Triple_String (t : Triple) : string :=
  fmt_ptr node_String (t_s t) +:+ String tab
    (fmt_ptr predicate_String (t_p t) +:+ String tab (fmt_ptr Object_String (t_o t))).

(** The text of an error value, [err.Error()]. *)
Fixpoint Error (e : error) : string :=
  match e with
  | ErrExternal msg => msg
  | ErrNotBoxed VNode o => "triple.Literal does not box a node in " +:+ o
  | ErrNotBoxed VPredicate o => "triple.Literal does not box a predicate in " +:+ o
  | ErrNotBoxed VLiteral o => "triple.Literal does not box a literal in " +:+ o
  | ErrNilComponents s p o =>
    "triple.NewTriple cannot create triples from nil components in <"
      +:+ s +:+ " " +:+ p +:+ " " +:+ o +:+ ">"
  | ErrSplit raw => "triple.Parse could not split s p o  out of " +:+ raw
  | ErrParse Subject ss c =>
    "triple.Parse failed to parse subject " +:+ ss +:+ " with error " +:+ Error c
  | ErrParse PredicateRole sp c =>
    "triple.Parse failed to parse predicate " +:+ sp +:+ " with error " +:+ Error c
  | ErrParse ObjectRole so c =>
    "triple.Parse failed to parse object " +:+ so +:+ " with error " +:+ Error c
  end.

Definition pSplit : Regexp := {| re_open := ">"; re_close := [dquote] |}.
Definition oSplit : Regexp := {| re_open := "]"; re_close := ["/"%char; dquote] |}.

Definition ParseTriple (line : string) (b : Builder) : res Triple :=
  let raw := TrimSpace line in
  match FindIndex pSplit raw, FindIndex oSplit raw with
  | Some idxp, Some idxo =>
    match slice raw 0 (idxp.1 + 1),
          slice raw (idxp.2 - 1) (idxo.1 + 1),
          slice_from raw (idxo.2 - 1) with
    | Some ss, Some sp, Some so =>
      match node_Parse ss with
      | inr err => Err (ErrParse Subject ss (ErrExternal err))
      | inl s =>
        match predicate_Parse sp with
        | inr err => Err (ErrParse PredicateRole sp (ErrExternal err))
        | inl p =>
          match ParseObject so b with
          | Ok o => NewTriple (Some s) (Some p) (Some o)
          | Err err => Err (ErrParse ObjectRole so err)
          | Panic => Panic
          end
        end
      end
    | _, _, _ => Panic
    end
  | _, _ => Err (ErrSplit raw)
  end.

(** The texts of a subject, a predicate and an object on which the two
    patterns find the two boundaries of the line made of them: the
    subject ends with [>], the predicate is quoted at its start and ends
    with the bracket, the object starts with a slash or a quote, neither
    pattern matches inside the subject, and the object pattern does not
    match inside the predicate. *)
Definition splittable (ss sp so : string) : Prop :=
  last ss = Some ">"%char
  /\ first sp = Some dquote /\ last sp = Some "]"%char
  /\ (exists c, first so = Some c /\ closes oSplit c = true)
  /\ FindIndex pSplit ss = None /\ FindIndex oSplit ss = None
  /\ FindIndex oSplit sp = None.

(** *** Reification *)

(** What a call of [Reify] acts on besides its receiver: the lines written
    by [fmt.Println] and the supply of blank nodes. *)
Record World := mkWorld { stdout : list string; blanks : BlankSupply }.

Definition of_ext {A} (r : A + string) : res A :=
  match r with inl a => Ok a | inr msg => Err (ErrExternal msg) end.

(** The closure [rp] of [Reify].  [p.Type()] on a nil pointer panics, and
    so does [*ta] when [TimeAnchor] gave no anchor. *)
Definition rp (id : string) (p : option Pred) : res Pred :=
  match p with
  | None => Panic
  | Some p =>
    match Type_ p with
    | Temporal =>
      match TimeAnchor p with
      | inl ta => of_ext (NewTemporal (ID p) ta)
      | inr _ => Panic
      end
    | Immutable => of_ext (NewImmutable id)
    end
  end.

(** [x, _ := NewTriple(...)]: the pointer, nil when the call failed. *)
Definition ptr_of {A} (r : res A) : option A :=
  match r with Ok a => Some a | _ => None end.

(** [Reify].  The object triple [to] starts nil and is set by each of the
    three tests on [t.o] that succeeds; [t.o.l] on a nil [t.o] panics. *)
Definition Reify (t : Triple) (w : World) : res (list (option Triple) * Node) * World :=
  let w := {| stdout := stdout w ++ [Triple_String t]; blanks := blanks w |} in
  let '(b, supply) := NewBlankNode (blanks w) in
  let w := {| stdout := stdout w; blanks := supply |} in
  (s <- rp "_subject" (t_p t) ;;
   let ts := ptr_of (NewTriple (Some b) (Some s) (Some (NewNodeObject (t_s t)))) in
   p <- rp "_predicate" (t_p t) ;;
   let tp := ptr_of (NewTriple (Some b) (Some p) (Some (NewPredicateObject (t_p t)))) in
   match t_o t with
   | None => Panic
   | Some to_ =>
     to1 <- match obj_l to_ with
            | Some l =>
              o <- rp "_object" (t_p t) ;;
              Ok (ptr_of (NewTriple (Some b) (Some o) (Some (NewLiteralObject (Some l)))))
            | None => Ok None
            end ;;
     to2 <- match obj_n to_ with
            | Some n =>
              o <- rp "_object" (t_p t) ;;
              Ok (ptr_of (NewTriple (Some b) (Some o) (Some (NewNodeObject (Some n)))))
            | None => Ok to1
            end ;;
     to3 <- match obj_p to_ with
            | Some p' =>
              o <- rp "_object" (t_p t) ;;
              Ok (ptr_of (NewTriple (Some b) (Some o) (Some (NewPredicateObject (Some p')))))
            | None => Ok to2
            end ;;
     Ok ([Some t; ts; tp; to3], b)
   end, w).

Definition Triple_GUID (t : Triple) : string := EncodeToString (Triple_String t).

(** What [ParseTriple] does with the three texts once the line is split:
    the three parsers in turn, each failure wrapped with the text and the
    role, and [NewTriple] on the three results. *)
Definition parse_fields (ss sp so : string) (b : Builder) : res Triple :=
  match node_Parse ss with
  | inr err => Err (ErrParse Subject ss (ErrExternal err))
  | inl s =>
    match predicate_Parse sp with
    | inr err => Err (ErrParse PredicateRole sp (ErrExternal err))
    | inl p =>
      match ParseObject so b with
      | Ok o => NewTriple (Some s) (Some p) (Some o)
      | Err err => Err (ErrParse ObjectRole so err)
      | Panic => Panic
      end
    end
  end.

End Model.

End Triple.

(* ===================================================================== *)
(** ** Package [semantic]: statements and graph clauses                    *)
(* ===================================================================== *)

Module Semantic.
Import Go Triple.

(** *** What the package takes from the Go run time and library *)

(** [sort.Interface], implemented on data of type [D] held in the store.
    [None] is a panic of the method. *)
Record Interface (D : Type) := {
  Len : D -> nat;
  Less : D -> nat -> nat -> option bool;
  Swap : D -> nat -> nat -> option D;
}.
Arguments Len {D} _ _.
Arguments Less {D} _ _ _ _.
Arguments Swap {D} _ _ _ _.

(** [sort.Sort], and the capacity [append] gives the array it allocates
    when [needed] elements do not fit the old capacity. *)
Class Runtime := {
  sort_Sort : forall D : Type, Interface D -> D -> option D;
  growslice_cap : nat -> nat -> nat;
}.

(** [s[i], s[j] = s[j], s[i]] on the elements of a slice. *)
Definition exchange {A} (l : list A) (i j : nat) : list A :=
  match l !! i, l !! j with
  | Some x, Some y => <[j := x]> (<[i := y]> l)
  | _, _ => l
  end.

(** The contract of [sort.Sort]: when [Len], [Less] and [Swap] act as length,
    comparison and exchange on a sequence [view d] of the data, and [Less]
    is a strict weak order, the call returns with the data reordered so
    that no element is [Less] than an earlier one.  Whatever [Swap]
    preserves ([Inv]) is preserved. *)
Record Sortable {D A : Type} (I : Interface D) (Inv : D -> Prop)
    (view : D -> list A) (lt : A -> A -> bool) : Prop := {
  sortable_Len : forall d, Inv d -> Len I d = length (view d);
  sortable_Less : forall d i j x y, Inv d ->
    view d !! i = Some x -> view d !! j = Some y -> Less I d i j = Some (lt x y);
  sortable_Swap : forall d i j, Inv d ->
    i < length (view d) -> j < length (view d) ->
    exists d', Swap I d i j = Some d' /\ Inv d' /\ view d' = exchange (view d) i j;
  sortable_irrefl : forall x, lt x x = false;
  sortable_trans : forall x y z, lt x y = true -> lt y z = true -> lt x z = true;
  sortable_incomp : forall x y z, lt x y = false -> lt y z = false -> lt x z = false;
}.

Definition ascending {A} (lt : A -> A -> bool) (l : list A) : Prop :=
  StronglySorted (fun x y => lt y x = false) l.

Class RuntimeLaws `{Runtime} : Prop := {
  sort_Sort_sorts : forall (D A : Type) (I : Interface D) (Inv : D -> Prop)
      (view : D -> list A) (lt : A -> A -> bool) (d : D),
    Sortable I Inv view lt -> Inv d ->
    exists d', sort_Sort D I d = Some d' /\ Inv d' /\
               view d' ≡ₚ view d /\ ascending lt (view d');
}.

(** The insertion sort of package [sort] ([insertionSort(data, a, b)] with
    [a = 0] and [b = data.Len()]), which is a [sort.Sort] in the sense
    above; it is used to run the model. *)
Fixpoint insert_down {D} (I : Interface D) (j : nat) (d : D) : option D :=
  match j with
  | 0 => Some d
  | S j' =>
    match Less I d j j' with
    | None => None
    | Some false => Some d
    | Some true =>
      match Swap I d j j' with
      | None => None
      | Some d' => insert_down I j' d'
      end
    end
  end.

Fixpoint insertion_loop {D} (I : Interface D) (i todo : nat) (d : D) : option D :=
  match todo with
  | 0 => Some d
  | S todo' =>
    match insert_down I i d with
    | None => None
    | Some d' => insertion_loop I (S i) todo' d'
    end
  end.

Definition insertionSort (D : Type) (I : Interface D) (d : D) : option D :=
  insertion_loop I 1 (Len I d - 1) d.

Section Model.
Context `{C : Collaborators} `{R : Runtime}.

Local Abbreviation Pred := (Predicate time_Time).

(** *** StatementType *)

(** [type StatementType int8], with the constants numbered by [iota]. *)
Definition StatementType := Z.
Definition Query : StatementType := 0%Z.
Definition Insert : StatementType := 1%Z.
Definition Delete : StatementType := 2%Z.
Definition Create : StatementType := 3%Z.
Definition Drop : StatementType := 4%Z.

Definition StatementType_String (t : StatementType) : string :=
  if (t =? Query)%Z then "QUERY"
  else if (t =? Insert)%Z then "INSERT"
  else if (t =? Delete)%Z then "DELETE"
  else if (t =? Create)%Z then "CREATE"
  else if (t =? Drop)%Z then "DROP"
  else "UNKNOWN".

(** *** GraphClause *)

(** The fields [S], [P] and [O] are written [S_], [P_], [O_]. *)
Record GraphClause := mkGraphClause {
  S_ : option Node;
  SBinding : string;
  SAlias : string;
  STypeAlias : string;
  SIDAlias : string;
  P_ : option Pred;
  PAlias : string;
  PID : string;
  PAnchorBinding : string;
  PBinding : string;
  PLowerBound : option time_Time;
  PUpperBound : option time_Time;
  PLowerBoundAlias : string;
  PUpperBoundAlias : string;
  PIDAlias : string;
  PAnchorAlias : string;
  O_ : option Object;
  OBinding : string;
  OID : string;
  OAlias : string;
  OTypeAlias : string;
  OIDAlias : string;
  OAnchorAlias : string;
  OAnchorBinding : string;
  OLowerBound : option time_Time;
  OUpperBound : option time_Time;
  OLowerBoundAlias : string;
  OUpperBoundAlias : string;
}.

(** [GraphClause{}], the zero value. *)
Definition GraphClause_zero : GraphClause :=
  mkGraphClause None "" "" "" "" None "" "" "" "" None None "" "" "" ""
                None "" "" "" "" "" "" "" None None "" "".

Definition Specificity (c : GraphClause) : nat :=
  let s := 0 in
  let s := match S_ c with Some _ => s + 1 | None => s end in
  let s := match P_ c with Some _ => s + 1 | None => s end in
  let s := match O_ c with Some _ => s + 1 | None => s end in
  s.

(** The arms of a clause that are not nil. *)
Definition arms (c : GraphClause) : nat :=
  (match S_ c with Some _ => 1 | None => 0 end)
  + (match P_ c with Some _ => 1 | None => 0 end)
  + (match O_ c with Some _ => 1 | None => 0 end).

(** *** The store *)

(** Addresses of allocated objects. *)
Definition loc := positive.

(** A slice value: pointer to the backing array, length, capacity.  The
    nil slice has no array.  The slices of this package are made by
    [append] from the nil slice and never resliced, so they start at the
    head of their array. *)
Record slice := mkSlice { base : option loc; slen : nat; scap : nat }.

Definition nil_slice : slice := mkSlice None 0 0.

(** [type Statement struct].  The slices [graphs] and [data] are only
    ever appended to and handed out; they are kept as sequences. *)
Record Statement := mkStatement {
  sType : StatementType;
  graphs : list string;
  data : list (option Triple);
  pattern : slice;
  workingClause : option loc;
}.

(** The state a [*Statement] lives in: the statement itself, the
    [GraphClause] objects and the backing arrays of [[]*GraphClause]
    slices, by address. *)
Record State := mkState {
  stmt : Statement;
  clauses : gmap loc GraphClause;
  arrays : gmap loc (list (option loc));
}.

Definition set_stmt (f : Statement -> Statement) (st : State) : State :=
  mkState (f (stmt st)) (clauses st) (arrays st).

(** The elements [s[0] .. s[len(s)-1]] of a slice. *)
Definition elems (arrs : gmap loc (list (option loc))) (s : slice) : list (option loc) :=
  match base s with
  | Some a => take (slen s) (default [] (arrs !! a))
  | None => []
  end.

(** [append(s, x)]: in place when the capacity allows, otherwise into a
    newly allocated array. *)
Definition append (arrs : gmap loc (list (option loc))) (s : slice) (x : option loc)
  : gmap loc (list (option loc)) * slice :=
  match base s with
  | Some a =>
    if slen s <? scap s
    then (alter (fun arr => <[slen s := x]> arr) a arrs, mkSlice (Some a) (slen s + 1) (scap s))
    else
      let a' := fresh (dom arrs) in
      let newcap := growslice_cap (scap s) (slen s + 1) in
      (<[a' := elems arrs s ++ x :: replicate (newcap - (slen s + 1)) None]> arrs,
       mkSlice (Some a') (slen s + 1) newcap)
  | None =>
    let a' := fresh (dom arrs) in
    let newcap := growslice_cap (scap s) (slen s + 1) in
    (<[a' := elems arrs s ++ x :: replicate (newcap - (slen s + 1)) None]> arrs,
     mkSlice (Some a') (slen s + 1) newcap)
  end.

(** *** Statement *)

(** [&Statement{}]: a new statement in an empty store. *)
Definition Statement_zero : Statement := mkStatement 0%Z [] [] nil_slice None.
Definition State_zero : State := mkState Statement_zero ∅ ∅.

Definition BindType (sty : StatementType) (st : State) : State :=
  set_stmt (fun s => mkStatement sty (graphs s) (data s) (pattern s) (workingClause s)) st.

Definition Statement_Type (st : State) : StatementType := sType (stmt st).

Definition AddGraph (g : string) (st : State) : State :=
  set_stmt (fun s => mkStatement (sType s) (graphs s ++ [g]) (data s) (pattern s)
                                 (workingClause s)) st.

Definition Graphs (st : State) : list string := graphs (stmt st).

Definition AddData (d : option Triple) (st : State) : State :=
  set_stmt (fun s => mkStatement (sType s) (graphs s) (data s ++ [d]) (pattern s)
                                 (workingClause s)) st.

Definition Data (st : State) : list (option Triple) := data (stmt st).

Definition GraphPatternClauses (st : State) : slice := pattern (stmt st).

(** [s.workingClause = &GraphClause{}] *)
Definition ResetWorkingGraphClause (st : State) : State :=
  let c := fresh (dom (clauses st)) in
  let s := stmt st in
  mkState (mkStatement (sType s) (graphs s) (data s) (pattern s) (Some c))
          (<[c := GraphClause_zero]> (clauses st))
          (arrays st).

Definition WorkingClause (st : State) : option loc := workingClause (stmt st).

Definition AddWorkingGrpahClause (st : State) : State :=
  let s := stmt st in
  let '(arrs, ptrn) := append (arrays st) (pattern s) (workingClause s) in
  ResetWorkingGraphClause
    (mkState (mkStatement (sType s) (graphs s) (data s) ptrn (workingClause s))
             (clauses st) arrs).

(** A write through the handle [WorkingClause()] returns: the clause at
    [c] becomes [f] of what it was. *)
Definition update_clause (c : loc) (f : GraphClause -> GraphClause) (st : State) : State :=
  mkState (stmt st) (alter f c (clauses st)) (arrays st).

(** *** bySpecificity *)

(** [type bySpecificity []*GraphClause]: the methods of the slice value
    [s], acting on the store. *)
Definition bySpecificity_Len (s : slice) (st : State) : nat := slen s.

Definition bySpecificity_Swap (s : slice) (st : State) (i j : nat) : option State :=
  match base s with
  | None => None
  | Some a =>
    match elems (arrays st) s !! i, elems (arrays st) s !! j with
    | Some x, Some y =>
      Some (mkState (stmt st) (clauses st)
                    (alter (fun arr => <[j := x]> (<[i := y]> arr)) a (arrays st)))
    | _, _ => None
    end
  end.

(** The clause a pointer designates, for [c.Specificity()]: on a nil
    pointer the method panics ([None]). *)
Definition deref (st : State) (c : option loc) : option GraphClause :=
  match c with
  | Some l => clauses st !! l
  | None => None
  end.

Definition bySpecificity_Less (s : slice) (st : State) (i j : nat) : option bool :=
  match elems (arrays st) s !! i, elems (arrays st) s !! j with
  | Some x, Some y =>
    match deref st x, deref st y with
    | Some ci, Some cj => Some (Specificity cj <? Specificity ci)
    | _, _ => None
    end
  | _, _ => None
  end.

Definition bySpecificity (s : slice) : Interface State :=
  {| Len := bySpecificity_Len s;
     Less := bySpecificity_Less s;
     Swap := bySpecificity_Swap s |}.

Definition SortedGraphPatternClauses (st : State) : option (slice * State) :=
  let ptrns := pattern (stmt st) in
  match sort_Sort State (bySpecificity ptrns) st with
  | None => None
  | Some st' => Some (ptrns, st')
  end.

(** The clauses a slice of pointers designates, in order; [None] when one
    of the pointers is nil. *)
Definition clauses_of (st : State) (s : slice) : option (list GraphClause) :=
  mapM (deref st) (elems (arrays st) s).

(** *** What holds of every state a program can reach *)

(** A slice designates allocated storage: its array exists and is at
    least as long as the length and the capacity say. *)
Definition slice_ok (arrs : gmap loc (list (option loc))) (s : slice) : Prop :=
  match base s with
  | Some a => exists arr, arrs !! a = Some arr /\ slen s <= length arr /\ scap s <= length arr
  | None => slen s = 0
  end.

(** A pointer is nil or the address of an allocated clause. *)
Definition valid_ptr (st : State) (x : option loc) : Prop :=
  forall l, x = Some l -> l ∈ dom (clauses st).

Definition wf (st : State) : Prop :=
  slice_ok (arrays st) (pattern (stmt st))
  /\ Forall (valid_ptr st) (elems (arrays st) (pattern (stmt st)))
  /\ valid_ptr st (workingClause (stmt st)).

(** No nil pointer was committed to the pattern: the working clause was
    initialised before each commit. *)
Definition no_nil_clause (st : State) : Prop :=
  Forall (fun x => x <> None) (elems (arrays st) (pattern (stmt st))).

(** The order [bySpecificity.Less] decides, on pointers, given the
    clauses of the store. *)
Definition key (cls : gmap loc GraphClause) (x : option loc) : nat :=
  match x with
  | Some l => match cls !! l with Some c => Specificity c | None => 0 end
  | None => 0
  end.

Definition less (cls : gmap loc GraphClause) (x y : option loc) : bool :=
  key cls y <? key cls x.

(** What [sort.Sort] on [bySpecificity(s)] keeps of the state [st0] it
    started from: the statement and the clauses; the slice still
    designates storage, holding pointers to clauses. *)
Definition sort_inv (st0 : State) (s : slice) (st : State) : Prop :=
  stmt st = stmt st0 /\ clauses st = clauses st0 /\ slice_ok (arrays st) s
  /\ Forall (fun x => is_Some (deref st0 x)) (elems (arrays st) s).

Definition non_increasing (cs : list GraphClause) : Prop :=
  forall i j ci cj, i <= j -> cs !! i = Some ci -> cs !! j = Some cj ->
    Specificity cj <= Specificity ci.

(** *** Bindings *)

(** [int] is 64 bits wide on the platforms the package is built for;
    [bs[b]++] wraps around. *)
Definition wrap_int (z : Z) : Z := ((z + 2 ^ 63) mod 2 ^ 64 - 2 ^ 63)%Z.

(** [addToBindings]: a key the map does not hold reads as 0. *)
Definition addToBindings (bs : gmap string Z) (b : string) : gmap string Z :=
  if negb (String.eqb b EmptyString)
  then <[b := wrap_int (default 0%Z (bs !! b) + 1)]> bs
  else bs.

(** The body of the loop of [Bindings], for the clause [cls]. *)
Definition Bindings_clause (bs : gmap string Z) (cls : GraphClause) : gmap string Z :=
  let bs := addToBindings bs (SBinding cls) in
  let bs := addToBindings bs (SAlias cls) in
  let bs := addToBindings bs (STypeAlias cls) in
  let bs := addToBindings bs (SIDAlias cls) in
  let bs := addToBindings bs (PAlias cls) in
  let bs := addToBindings bs (PAnchorBinding cls) in
  let bs := addToBindings bs (PBinding cls) in
  let bs := addToBindings bs (PLowerBoundAlias cls) in
  let bs := addToBindings bs (PUpperBoundAlias cls) in
  let bs := addToBindings bs (PIDAlias cls) in
  let bs := addToBindings bs (PAnchorAlias cls) in
  let bs := addToBindings bs (OBinding cls) in
  let bs := addToBindings bs (OID cls) in
  let bs := addToBindings bs (OAlias cls) in
  let bs := addToBindings bs (OTypeAlias cls) in
  let bs := addToBindings bs (OIDAlias cls) in
  let bs := addToBindings bs (OAnchorAlias cls) in
  let bs := addToBindings bs (OAnchorBinding cls) in
  let bs := addToBindings bs (OLowerBoundAlias cls) in
  let bs := addToBindings bs (OUpperBoundAlias cls) in
  bs.

(** The loop over [s.pattern]: reading a field of a nil clause pointer
    panics ([None]). *)
Fixpoint Bindings_loop (st : State) (bs : gmap string Z) (l : list (option loc))
  : option (gmap string Z) :=
  match l with
  | [] => Some bs
  | x :: l' =>
    match deref st x with
    | None => None
    | Some cls => Bindings_loop st (Bindings_clause bs cls) l'
    end
  end.

Definition Bindings (st : State) : option (gmap string Z) :=
  Bindings_loop st ∅ (elems (arrays st) (pattern (stmt st))).

(** The twenty fields of a clause that [Bindings] reads, in the order it
    reads them. *)
Definition binding_names (cls : GraphClause) : list string :=
  [SBinding cls; SAlias cls; STypeAlias cls; SIDAlias cls; PAlias cls;
   PAnchorBinding cls; PBinding cls; PLowerBoundAlias cls; PUpperBoundAlias cls;
   PIDAlias cls; PAnchorAlias cls; OBinding cls; OID cls; OAlias cls;
   OTypeAlias cls; OIDAlias cls; OAnchorAlias cls; OAnchorBinding cls;
   OLowerBoundAlias cls; OUpperBoundAlias cls].

(** How often a name is written in the clauses. *)
Definition occurrences (name : string) (cs : list GraphClause) : nat :=
  count_occ string_dec (concat (binding_names <$> cs)) name.

End Model.

End Semantic.

(* ===================================================================== *)
(** ** A concrete set of collaborators                                     *)
(* ===================================================================== *)

(** Modelled from the spec: the packages [node], [predicate] and [literal]
    are not among the sources.  The instance below follows the serialized
    line format of the specification ("subject-text and predicate-text use
    bracketed/angle-bracketed delimiters", objects are "a bracketed node
    form, a quoted literal form, or an angle-bracketed predicate form"):
    a node is written [/type<id>], a predicate ["id"@[anchor]] with an
    empty anchor when immutable, a literal ["text"^^type:text].  It serves
    to run the model on concrete inputs. *)
Module Ref.
Import Go Triple Semantic.

(** Modelled from the spec: a node, which is a type and an ID. *)
Record RNode := mkNode { ntype : string; nid : string }.

Definition q (s : string) : string := String dquote (s +:+ String dquote "").

Definition ends_with (suffix s : string) : bool :=
  (len suffix <=? len s) &&
  String.eqb (substring (len s - len suffix) (len suffix) s) suffix.

Definition drop_end (k : nat) (s : string) : string := substring 0 (len s - k) s.

Definition has (c : string) (s : string) : bool :=
  match String.index 0 c s with Some _ => true | None => false end.

(** Modelled from the spec: the text of a node, [/type<id>], and its
    parser, which wants a type that starts with a slash and an ID between
    angle brackets that holds neither of them. *)
Definition rnode_String (n : RNode) : string := ntype n +:+ "<" +:+ nid n +:+ ">".

Definition rnode_Parse (s : string) : RNode + string :=
  match String.index 0 "<" s with
  | Some i =>
    let ty := substring 0 i s in
    let rest := substring (i + 1) (len s - (i + 1)) s in
    if String.prefix "/" ty && ends_with ">" rest
       && negb (has "<" (drop_end 1 rest)) && negb (has ">" (drop_end 1 rest))
    then inl (mkNode ty (drop_end 1 rest))
    else inr ("node.Parse: malformed node " +:+ s)
  | None => inr ("node.Parse: malformed node " +:+ s)
  end.

(** Modelled from the spec: a supply of blank nodes, all different. *)
Definition rblank (k : nat) : RNode * nat :=
  (mkNode "/_" (String.concat "" (replicate (k + 1) "b")), k + 1).

(** Modelled from the spec: a text literal, its quoted text, and a builder
    that parses one with no limit on its size. *)
Definition rliteral_String (l : string) : string := q l +:+ "^^type:text".

Definition rbuilder (s : string) : string + string :=
  let tail := String dquote "^^type:text" in
  if String.prefix (String dquote "") s && ends_with tail s && (len tail <? len s)
  then inl (substring 1 (len s - len tail - 1) s)
  else inr ("literal.Parse: malformed literal " +:+ s).

(** Modelled from the spec: the text of a predicate, its quoted ID and its
    anchor between brackets, and the parser of that text. *)
Definition rpredicate_String (p : Predicate string) : string :=
  q (pred_id p) +:+ "@[" +:+ default "" (pred_anchor p) +:+ "]".

Definition rpredicate_Parse (s : string) : Predicate string + string :=
  match String.index 0 (String dquote "@[") s with
  | Some i =>
    let a := substring (i + 3) (len s - (i + 3)) s in
    if String.prefix (String dquote "") s && (0 <? i) && ends_with "]" a
    then inl (mkPredicate (substring 1 (i - 1) s)
                (if String.eqb (drop_end 1 a) "" then None else Some (drop_end 1 a)))
    else inr ("predicate.Parse: malformed predicate " +:+ s)
  | None => inr ("predicate.Parse: malformed predicate " +:+ s)
  end.

(** Modelled from the spec: the two constructors of predicates, which
    fail on an empty ID. *)
Definition rNewImmutable (id : string) : Predicate string + string :=
  if String.eqb id "" then inr "predicate.NewImmutable: empty ID"%string
  else inl (mkPredicate id None).

Definition rNewTemporal (id : string) (t : string) : Predicate string + string :=
  if String.eqb id "" then inr "predicate.NewTemporal: empty ID"%string
  else inl (mkPredicate id (Some t)).

#[export] Instance collaborators : Collaborators := {|
  Node := RNode;
  Literal := string;
  time_Time := string;
  BlankSupply := nat;
  node_String := rnode_String;
  node_Parse := rnode_Parse;
  NewBlankNode := rblank;
  literal_String := rliteral_String;
  predicate_String := rpredicate_String;
  predicate_Parse := rpredicate_Parse;
  NewImmutable := rNewImmutable;
  NewTemporal := rNewTemporal;
|}.

(** The library's insertion sort as [sort.Sort], and capacity doubling. *)
#[export] Instance runtime : Runtime := {|
  sort_Sort := insertionSort;
  growslice_cap := fun old needed => Nat.max needed (old + old);
|}.

(** Sample data. *)
Definition john : RNode := mkNode "/u" "john".
Definition mary : RNode := mkNode "/u" "mary".
Definition knows : Predicate string := mkPredicate "knows" None.
Definition met : Predicate string := mkPredicate "met" (Some "2015-07-19T13:12:04Z"%string).
Definition w0 : World := {| stdout := []; blanks := 0 |}.

(** A predicate whose ID holds a bracket, a space and a slash. *)
Definition odd : Predicate string := mkPredicate "a] /b" None.

Definition lit_v : Object := NewLiteralObject (Some "v"%string).
Definition obj_mary : Object := NewNodeObject (Some mary).

Definition t_knows : Triple := mkTriple (Some john) (Some knows) (Some lit_v).
Definition t_met : Triple := mkTriple (Some john) (Some met) (Some obj_mary).
Definition t_odd : Triple := mkTriple (Some john) (Some odd) (Some lit_v).

(** A clause with the given subject, predicate and object and nothing
    else, as a parser writes it into a fresh working clause. *)
Definition clause_with (s : option RNode) (p : option (Predicate string))
    (o : option Object) (c : GraphClause) : GraphClause :=
  mkGraphClause s (SBinding c) (SAlias c) (STypeAlias c) (SIDAlias c)
                p (PAlias c) (PID c) (PAnchorBinding c) (PBinding c)
                (PLowerBound c) (PUpperBound c) (PLowerBoundAlias c)
                (PUpperBoundAlias c) (PIDAlias c) (PAnchorAlias c)
                o (OBinding c) (OID c) (OAlias c) (OTypeAlias c) (OIDAlias c)
                (OAnchorAlias c) (OAnchorBinding c) (OLowerBound c) (OUpperBound c)
                (OLowerBoundAlias c) (OUpperBoundAlias c).

Definition write_working (f : GraphClause -> GraphClause) (st : State) : State :=
  match WorkingClause st with
  | Some w => update_clause w f st
  | None => st
  end.

Definition commit (s : option RNode) (p : option (Predicate string))
    (o : option Object) (st : State) : State :=
  AddWorkingGrpahClause (write_working (clause_with s p o) st).

(** A statement with four committed clauses, of specificity 0, 3, 1, 2
    in the order of commit. *)
Definition sample : State :=
  commit (Some john) (Some knows) None
    (commit None (Some knows) None
      (commit (Some john) (Some knows) (Some (NewNodeObject (Some mary)))
        (commit None None None (ResetWorkingGraphClause State_zero)))).

Definition specificities (r : option (list GraphClause)) : option (list nat) :=
  fmap (M := list) Specificity <$> r.

(** A statement ready for the next clause: the invariant holds, no nil
    pointer was committed, and there is a working clause. *)
Definition ready (st : State) : Prop :=
  wf st /\ no_nil_clause st /\ workingClause (stmt st) <> None.

(** The first blank node of the supply. *)
Definition blank1 : RNode := mkNode "/_" "b".

(** A node whose ID holds a bracket, a space and a quote. *)
Definition bracket : RNode := mkNode "/u" ("a] " +:+ String dquote "b").
Definition t_bracket : Triple := mkTriple (Some bracket) (Some knows) (Some lit_v).

(** A predicate whose ID holds the subject pattern: [>], a space and a
    quote. *)
Definition twice : Predicate string := mkPredicate ("a> " +:+ String dquote "b") None.
Definition t_twice : Triple := mkTriple (Some john) (Some twice) (Some lit_v).

(** Statements whose first commit came before any working clause was
    made: the pattern starts with a nil pointer. *)
Definition hasty : State :=
  commit (Some john) None None (AddWorkingGrpahClause State_zero).

Definition hasty3 : State := commit (Some john) (Some knows) None hasty.

(** A triple whose object holds no variant. *)
Definition hollow : Object := NewNodeObject None.
Definition t_hollow : Triple := mkTriple (Some john) (Some knows) (Some hollow).

(** A clause of variables: the bindings of the subject, the predicate and
    the object, and the ID of the predicate, written into a clause. *)
Definition clause_bound (s p o pid : string) (c : GraphClause) : GraphClause :=
  mkGraphClause (S_ c) s (SAlias c) (STypeAlias c) (SIDAlias c)
                (P_ c) (PAlias c) pid (PAnchorBinding c) p
                (PLowerBound c) (PUpperBound c) (PLowerBoundAlias c)
                (PUpperBoundAlias c) (PIDAlias c) (PAnchorAlias c)
                (O_ c) o (OID c) (OAlias c) (OTypeAlias c) (OIDAlias c)
                (OAnchorAlias c) (OAnchorBinding c) (OLowerBound c) (OUpperBound c)
                (OLowerBoundAlias c) (OUpperBoundAlias c).

Definition commit_with (f : GraphClause -> GraphClause) (st : State) : State :=
  AddWorkingGrpahClause (write_working f st).

(** A statement with two committed clauses of variables. *)
Definition bound : State :=
  commit_with (clause_bound "?y" "?p" "?x" "knows")
    (commit_with (clause_bound "?x" "?p" "?y" "knows")
      (ResetWorkingGraphClause State_zero)).

Definition bound_clauses : list GraphClause :=
  [clause_bound "?x" "?p" "?y" "knows" GraphClause_zero;
   clause_bound "?y" "?p" "?x" "knows" GraphClause_zero].

(** A statement whose working clause is written and not yet committed. *)
Definition pending : State :=
  write_working (clause_bound "?x" "?p" "?y" "knows") (ResetWorkingGraphClause State_zero).

End Ref.

(* ===================================================================== *)
(** ** Properties of the string and pattern functions                      *)
(* ===================================================================== *)

Module GoFacts.
Import Go.

Lemma app_cons (c : ascii) (a b : string) : String c a +:+ b = String c (a +:+ b).
Proof. reflexivity. Qed.

Lemma app_nil_l (b : string) : "" +:+ b = b.
Proof. reflexivity. Qed.

Lemma app_nil_r (s : string) : s +:+ "" = s.
Proof. induction s as [|c s IH]; [|rewrite app_cons, IH]; reflexivity. Qed.

Lemma app_assoc (a b c : string) : (a +:+ b) +:+ c = a +:+ (b +:+ c).
Proof. induction a as [|x a IH]; [|rewrite !app_cons, IH]; reflexivity. Qed.

Lemma len_cons (c : ascii) (a : string) : len (String c a) = S (len a).
Proof. reflexivity. Qed.

Lemma len_app (a b : string) : len (a +:+ b) = len a + len b.
Proof. induction a as [|x a IH]; [|rewrite app_cons, !len_cons, IH]; reflexivity. Qed.

Lemma substring_all (s : string) : substring 0 (len s) s = s.
Proof.
  induction s as [|c s IH]; [reflexivity|].
  rewrite len_cons. simpl. rewrite IH. reflexivity.
Qed.

Lemma substring_app_l (a b : string) : substring 0 (len a) (a +:+ b) = a.
Proof.
  induction a as [|x a IH].
  - destruct b; reflexivity.
  - rewrite app_cons, len_cons. simpl. rewrite IH. reflexivity.
Qed.

Lemma substring_app_r (a b : string) (n m : nat) :
  substring (len a + n) m (a +:+ b) = substring n m b.
Proof.
  induction a as [|x a IH]; [reflexivity|].
  rewrite app_cons, len_cons. simpl. exact IH.
Qed.

Lemma slice_app_l (a b : string) : slice (a +:+ b) 0 (len a) = Some a.
Proof.
  unfold slice. rewrite len_app.
  replace (0 <=? len a) with true by (symmetry; apply Nat.leb_le; lia).
  replace (len a <=? len a + len b) with true by (symmetry; apply Nat.leb_le; lia).
  cbn. rewrite Nat.sub_0_r, substring_app_l. reflexivity.
Qed.

Lemma slice_app_mid (a b c : string) :
  slice (a +:+ (b +:+ c)) (len a) (len a + len b) = Some b.
Proof.
  unfold slice. rewrite !len_app.
  replace (len a <=? len a + len b) with true by (symmetry; apply Nat.leb_le; lia).
  replace (len a + len b <=? len a + (len b + len c)) with true
    by (symmetry; apply Nat.leb_le; lia).
  cbn. replace (len a + len b - len a) with (len b) by lia.
  rewrite <- (Nat.add_0_r (len a)) at 1.
  rewrite substring_app_r, substring_app_l. reflexivity.
Qed.

Lemma slice_from_app (a b : string) : slice_from (a +:+ b) (len a) = Some b.
Proof.
  unfold slice_from, slice. rewrite len_app.
  replace (len a <=? len a + len b) with true by (symmetry; apply Nat.leb_le; lia).
  rewrite Nat.leb_refl. cbn.
  replace (len a + len b - len a) with (len b) by lia.
  rewrite <- (Nat.add_0_r (len a)) at 1.
  rewrite substring_app_r, substring_all. reflexivity.
Qed.

Lemma last_inv (s : string) (c : ascii) :
  last s = Some c -> exists s0, s = s0 +:+ String c "".
Proof.
  induction s as [|x s IH]; cbn; [discriminate|].
  destruct s as [|y s].
  - intros [= ->]. exists ""%string. reflexivity.
  - intros H. destruct (IH H) as [s0 ->]. exists (String x s0). reflexivity.
Qed.

Lemma first_inv (s : string) (c : ascii) :
  first s = Some c -> exists r, s = String c r.
Proof. destruct s; cbn; [discriminate|]. intros [= ->]. eauto. Qed.

(** *** The matcher against the meaning of the pattern *)

Lemma closes_not_space (re : Regexp) (c : ascii) :
  re_wf re = true -> closes re c = true -> re_space c = false.
Proof.
  unfold re_wf, closes. intros Hwf Hc.
  apply existsb_exists in Hc as [x [Hin Hx]].
  apply Ascii.eqb_eq in Hx as ->.
  rewrite forallb_forall in Hwf. specialize (Hwf _ Hin).
  destruct (re_space x); [discriminate|reflexivity].
Qed.

Lemma match_tail_Some (re : Regexp) (seen : bool) (s : string) (k : nat) :
  match_tail re seen s = Some k ->
  exists ws c post,
    s = ws +:+ String c post /\ all_space ws = true /\ closes re c = true
    /\ (seen = true \/ ws <> EmptyString) /\ k = len ws + 1.
Proof.
  revert seen k. induction s as [|x s IH]; intros seen k; cbn; [discriminate|].
  destruct (re_space x) eqn:Hx.
  - destruct (match_tail re true s) as [k'|] eqn:Hk; [|discriminate].
    intros [= <-]. destruct (IH _ _ Hk) as (ws & c & post & -> & Hws & Hc & _ & ->).
    exists (String x ws), c, post. cbn. rewrite Hx, Hws.
    repeat split; auto.
  - destruct seen; cbn; [|discriminate].
    destruct (closes re x) eqn:Hc; [|discriminate]. intros [= <-].
    exists ""%string, x, s. repeat split; auto.
Qed.

Lemma match_tail_complete (re : Regexp) (seen : bool) (ws : string) (c : ascii)
    (post : string) :
  re_wf re = true -> all_space ws = true -> closes re c = true ->
  seen = true \/ ws <> EmptyString ->
  match_tail re seen (ws +:+ String c post) = Some (len ws + 1).
Proof.
  intros Hwf Hws Hc. revert seen.
  induction ws as [|x ws IH]; intros seen Hseen;
    rewrite ?app_nil_l, ?app_cons; cbn [match_tail].
  - rewrite (closes_not_space _ _ Hwf Hc), Hc.
    destruct Hseen as [-> | Hne]; [reflexivity|congruence].
  - cbn in Hws. apply andb_true_iff in Hws as [Hx Hws]. rewrite Hx.
    rewrite (IH Hws true) by auto. reflexivity.
Qed.

Lemma match_here_Matches (re : Regexp) (s : string) (k : nat) :
  match_here re s = Some k -> Matches re s 0 k.
Proof.
  destruct s as [|x s]; cbn; [discriminate|].
  destruct (Ascii.eqb x (re_open re)) eqn:Hx; [|discriminate].
  apply Ascii.eqb_eq in Hx as ->.
  destruct (match_tail re false s) as [k'|] eqn:Hk; [|discriminate].
  intros [= <-].
  destruct (match_tail_Some _ _ _ _ Hk) as (ws & c & post & -> & Hws & Hc & Hne & ->).
  exists ""%string, ws, c, post.
  split; [reflexivity|]. split; [reflexivity|]. split.
  { destruct Hne as [Hf|Hne]; [discriminate|exact Hne]. }
  repeat split; auto.
Qed.

Lemma Matches_match_here (re : Regexp) (s : string) (k : nat) :
  re_wf re = true -> Matches re s 0 k -> match_here re s = Some k.
Proof.
  intros Hwf (pre & ws & c & post & -> & Hpre & Hne & Hws & Hc & ->).
  destruct pre; [|discriminate]. rewrite app_nil_l. cbn [match_here].
  rewrite Ascii.eqb_refl, (match_tail_complete _ false ws c post Hwf Hws Hc) by auto.
  cbn. f_equal; lia.
Qed.

Lemma Matches_tail (re : Regexp) (x : ascii) (s : string) (i j : nat) :
  Matches re (String x s) (S i) (S j) <-> Matches re s i j.
Proof.
  split.
  - intros (pre & ws & c & post & Hs & Hpre & Hne & Hws & Hc & Hj).
    destruct pre as [|y pre]; [discriminate|].
    rewrite app_cons in Hs. rewrite len_cons in Hpre.
    injection Hs as -> ->. exists pre, ws, c, post. repeat split; auto; lia.
  - intros (pre & ws & c & post & -> & Hpre & Hne & Hws & Hc & ->).
    exists (String x pre), ws, c, post. rewrite app_cons, len_cons.
    repeat split; auto; lia.
Qed.

Lemma Matches_bounds (re : Regexp) (s : string) (i j : nat) :
  Matches re s i j -> i + 3 <= j.
Proof.
  intros (pre & ws & c & post & _ & _ & Hne & _ & _ & ->).
  destruct ws; [congruence|]. cbn. lia.
Qed.

(** [find_from] reports a match of the pattern, and no match starts
    before the one it reports. *)
Lemma find_from_Some (re : Regexp) (s : string) (i a b : nat) :
  re_wf re = true -> find_from re i s = Some (a, b) ->
  i <= a /\ Matches re s (a - i) (b - i)
  /\ forall a' b', Matches re s a' b' -> a - i <= a'.
Proof.
  intros Hwf. revert i. induction s as [|x s IH]; intros i; cbn [find_from].
  - cbn. discriminate.
  - destruct (match_here re (String x s)) as [k|] eqn:Hk.
    + intros [= <- <-]. split; [lia|]. split; [|intros; lia].
      replace (i - i) with 0 by lia. replace (i + k - i) with k by lia.
      apply match_here_Matches. exact Hk.
    + intros H. destruct (IH _ H) as (Hle & HM & Hmin).
      pose proof (Matches_bounds _ _ _ _ HM) as Hb.
      split; [lia|]. split.
      * replace (a - i) with (S (a - S i)) by lia.
        replace (b - i) with (S (b - S i)) by lia.
        apply Matches_tail. exact HM.
      * intros a' b' HM'. destruct a' as [|a'].
        -- apply (Matches_match_here _ _ _ Hwf) in HM'. congruence.
        -- pose proof (Matches_bounds _ _ _ _ HM') as Hb'.
           destruct b' as [|b']; [lia|].
           apply Matches_tail in HM'. specialize (Hmin _ _ HM'). lia.
Qed.

Lemma find_from_None (re : Regexp) (s : string) (i a b : nat) :
  re_wf re = true -> find_from re i s = None -> ~ Matches re s a b.
Proof.
  intros Hwf. revert i a b. induction s as [|x s IH]; intros i a b; cbn [find_from].
  - intros _ (pre & ws & c & post & Hs & _). destruct pre; discriminate.
  - destruct (match_here re (String x s)) as [k|] eqn:Hk; [discriminate|].
    intros H HM. destruct a as [|a].
    + apply (Matches_match_here _ _ _ Hwf) in HM. congruence.
    + pose proof (Matches_bounds _ _ _ _ HM) as Hb.
      destruct b as [|b]; [lia|]. apply Matches_tail in HM.
      exact (IH _ _ _ H HM).
Qed.

Lemma FindIndex_leftmost (re : Regexp) (s : string) (a b : nat) :
  re_wf re = true -> FindIndex re s = Some (a, b) ->
  Matches re s a b /\ forall a' b', Matches re s a' b' -> a <= a'.
Proof.
  intros Hwf H. destruct (find_from_Some _ _ _ _ _ Hwf H) as (_ & HM & Hmin).
  rewrite !Nat.sub_0_r in *. auto.
Qed.

Lemma FindIndex_no_match (re : Regexp) (s : string) :
  re_wf re = true -> FindIndex re s = None -> forall a b, ~ Matches re s a b.
Proof. intros Hwf H a b. exact (find_from_None _ _ _ _ _ Hwf H). Qed.

Lemma FindIndex_None_iff (re : Regexp) (s : string) :
  re_wf re = true -> FindIndex re s = None <-> forall a b, ~ Matches re s a b.
Proof.
  intros Hwf. split; [apply FindIndex_no_match; exact Hwf|].
  intros Hno. destruct (FindIndex re s) as [[a b]|] eqn:Hf; [|reflexivity].
  destruct (FindIndex_leftmost _ _ _ _ Hwf Hf) as [HM _]. destruct (Hno _ _ HM).
Qed.

Lemma FindIndex_Some_iff (re : Regexp) (s : string) :
  re_wf re = true -> is_Some (FindIndex re s) <-> exists a b, Matches re s a b.
Proof.
  intros Hwf. split.
  - intros [[a b] Hf]. exists a, b. apply (FindIndex_leftmost _ _ _ _ Hwf Hf).
  - intros (a & b & HM). destruct (FindIndex re s) eqn:Hf; [eauto|].
    destruct (FindIndex_no_match _ _ Hwf Hf _ _ HM).
Qed.

(** *** Searching a text that is followed by more *)

Lemma match_tail_barrier (re : Regexp) (seen : bool) (a : string) (c : ascii) (b : string) :
  barrier re c = true ->
  match_tail re seen (a +:+ String c b) = match_tail re seen a.
Proof.
  unfold barrier. intros Hc. apply andb_true_iff in Hc as [Hs Hc].
  apply negb_true_iff in Hs, Hc.
  revert seen.
  induction a as [|x a IH]; intros seen; rewrite ?app_nil_l, ?app_cons; cbn [match_tail].
  - rewrite Hs, Hc, andb_false_r. reflexivity.
  - destruct (re_space x); [rewrite IH|]; reflexivity.
Qed.

Lemma find_from_barrier (re : Regexp) (i : nat) (a : string) (c : ascii) (b : string) :
  barrier re c = true ->
  find_from re i (a +:+ String c b)
  = match find_from re i a with
    | Some r => Some r
    | None => find_from re (i + len a) (String c b)
    end.
Proof.
  intros Hc. revert i. induction a as [|x a IH]; intros i.
  - rewrite app_nil_l. cbn [find_from match_here len String.length].
    rewrite Nat.add_0_r. reflexivity.
  - rewrite app_cons.
    cbn [find_from match_here]. rewrite (match_tail_barrier _ _ _ _ _ Hc).
    destruct (if Ascii.eqb x (re_open re) then S <$> match_tail re false a else None);
      [reflexivity|].
    rewrite IH, len_cons, Nat.add_succ_r. reflexivity.
Qed.

Lemma find_from_None_shift (re : Regexp) (i j : nat) (s : string) :
  find_from re i s = None -> find_from re j s = None.
Proof.
  revert i j. induction s as [|x s IH]; intros i j; cbn [find_from].
  - cbn. reflexivity.
  - destruct (match_here re (String x s)); [discriminate|]. apply IH.
Qed.

(** A text that ends with a barrier and holds no match of its own holds no
    match when more text follows it, up to its last byte. *)
Lemma find_from_skip (re : Regexp) (i : nat) (a : string) (c : ascii) (b : string) :
  barrier re c = true -> FindIndex re (a +:+ String c "") = None ->
  find_from re i (a +:+ String c b) = find_from re (i + len a) (String c b).
Proof.
  intros Hc Hnone. unfold FindIndex in Hnone.
  rewrite (find_from_barrier _ _ _ _ _ Hc) in Hnone.
  rewrite (find_from_barrier _ _ _ _ _ Hc).
  destruct (find_from re 0 a) eqn:H0; [discriminate|].
  rewrite (find_from_None_shift _ 0 i _ H0). reflexivity.
Qed.

End GoFacts.

(* ===================================================================== *)
(** ** Properties of package [triple]                                      *)
(* ===================================================================== *)

Module TripleFacts.
Import Go Triple.

Section Facts.
Context `{C : Collaborators}.

Local Abbreviation Pred := (Predicate time_Time).

(** *** Objects *)

Lemma held_NewNodeObject (n : Node) : held (NewNodeObject (Some n)) = [VNode].
Proof. reflexivity. Qed.

Lemma held_NewPredicateObject (p : Pred) : held (NewPredicateObject (Some p)) = [VPredicate].
Proof. reflexivity. Qed.

Lemma held_NewLiteralObject (l : Literal) : held (NewLiteralObject (Some l)) = [VLiteral].
Proof. reflexivity. Qed.

(** An object that holds exactly one variant is the value the matching
    constructor builds. *)
Lemma held_one_inv (o : Object) (v : Variant) :
  held o = [v] ->
  match v with
  | VNode => exists n, o = NewNodeObject (Some n)
  | VPredicate => exists p, o = NewPredicateObject (Some p)
  | VLiteral => exists l, o = NewLiteralObject (Some l)
  end.
Proof.
  destruct o as [[n|] [p|] [l|]]; unfold held; cbn; intros Hv;
    try discriminate; injection Hv as <-; eauto.
Qed.

(** C6, as amended: an object built by a constructor from a non-nil
    argument answers the accessor of its own variant with that argument,
    and each of the other two accessors with the error that says the
    variant is not boxed; so exactly one of the three succeeds. *)
Theorem constructor_accessors (n : Node) (p : Pred) (l : Literal) :
  (Object_Node (NewNodeObject (Some n)) = Ok n
   /\ Object_Predicate (NewNodeObject (Some n)) = Err (ErrNotBoxed VPredicate (node_String n))
   /\ Object_Literal (NewNodeObject (Some n)) = Err (ErrNotBoxed VLiteral (node_String n))
   /\ successes (NewNodeObject (Some n)) = 1)
  /\
  (Object_Predicate (NewPredicateObject (Some p)) = Ok p
   /\ Object_Node (NewPredicateObject (Some p)) = Err (ErrNotBoxed VNode (predicate_String p))
   /\ Object_Literal (NewPredicateObject (Some p))
      = Err (ErrNotBoxed VLiteral (predicate_String p))
   /\ successes (NewPredicateObject (Some p)) = 1)
  /\
  (Object_Literal (NewLiteralObject (Some l)) = Ok l
   /\ Object_Node (NewLiteralObject (Some l)) = Err (ErrNotBoxed VNode (literal_String l))
   /\ Object_Predicate (NewLiteralObject (Some l))
      = Err (ErrNotBoxed VPredicate (literal_String l))
   /\ successes (NewLiteralObject (Some l)) = 1).
Proof. repeat split. Qed.

(** The accessors of any object that keeps the invariant. *)
Lemma exactly_one_successes (o : Object) : exactly_one_of o -> successes o = 1.
Proof.
  intros [v Hv]. apply held_one_inv in Hv.
  destruct v; destruct Hv as [x ->]; reflexivity.
Qed.

(** *** ParseObject *)

(** C4: [ParseObject] gives the node parser's result when that parser
    succeeds; otherwise the literal builder's when it succeeds; otherwise
    the predicate parser's; the object returned holds the variant of the
    parser that succeeded, and when all three fail the error is the one
    the predicate parser returned. *)
Theorem ParseObject_order (s : string) (b : Builder) :
  (forall n, node_Parse s = inl n ->
     ParseObject s b = Ok (NewNodeObject (Some n)))
  /\ (forall e l, node_Parse s = inr e -> b s = inl l ->
     ParseObject s b = Ok (NewLiteralObject (Some l)))
  /\ (forall e e' p, node_Parse s = inr e -> b s = inr e' -> predicate_Parse s = inl p ->
     ParseObject s b = Ok (NewPredicateObject (Some p)))
  /\ (forall e e' e'', node_Parse s = inr e -> b s = inr e' -> predicate_Parse s = inr e'' ->
     ParseObject s b = Err (ErrExternal e''))
  /\ (forall o, ParseObject s b = Ok o ->
     match node_Parse s, b s, predicate_Parse s with
     | inl _, _, _ => held o = [VNode]
     | inr _, inl _, _ => held o = [VLiteral]
     | inr _, inr _, inl _ => held o = [VPredicate]
     | inr _, inr _, inr _ => False
     end).
Proof.
  unfold ParseObject. repeat split.
  - intros n ->. reflexivity.
  - intros e l -> ->. reflexivity.
  - intros e e' p -> -> ->. reflexivity.
  - intros e e' e'' -> -> ->. reflexivity.
  - intros o. destruct (node_Parse s), (b s), (predicate_Parse s);
      intros Ho; inversion Ho; reflexivity.
Qed.

Lemma ParseObject_no_panic (s : string) (b : Builder) : ParseObject s b <> Panic.
Proof.
  unfold ParseObject. destruct (node_Parse s), (b s), (predicate_Parse s); discriminate.
Qed.

(** *** GUIDs *)

(** C7: the GUID of an object that holds exactly one variant is the base64
    encoding of the variant's tag, a colon and the object's string; the
    GUID of a triple is the base64 encoding of the strings of its subject,
    predicate and object joined by tabs; two objects of the same variant
    and the same string have the same GUID. *)
Theorem GUID_encoding :
  (forall (o : Object) (v : Variant), held o = [v] ->
     Object_GUID o = EncodeToString (variant_tag v +:+ ":" +:+ Object_String o))
  /\ (forall t : Triple,
     Triple_GUID t
     = EncodeToString (fmt_ptr node_String (t_s t) +:+ String tab ""
                       +:+ fmt_ptr predicate_String (t_p t) +:+ String tab ""
                       +:+ fmt_ptr Object_String (t_o t)))
  /\ (forall (o1 o2 : Object) (v : Variant), held o1 = [v] -> held o2 = [v] ->
     Object_String o1 = Object_String o2 -> Object_GUID o1 = Object_GUID o2).
Proof.
  assert (Hone : forall (o : Object) (v : Variant), held o = [v] ->
     Object_GUID o = EncodeToString (variant_tag v +:+ ":" +:+ Object_String o)).
  { intros o v Hv. apply held_one_inv in Hv.
    destruct v; destruct Hv as [x ->]; reflexivity. }
  split; [exact Hone|]. split.
  - intros t. reflexivity.
  - intros o1 o2 v H1 H2 Hs. rewrite (Hone _ _ H1), (Hone _ _ H2), Hs. reflexivity.
Qed.

(** *** Reification *)

(** The role predicate of an immutable predicate is built from the role
    suffix alone. *)
Lemma rp_Immutable (id : string) (p : Pred) :
  Type_ p = Immutable -> rp id (Some p) = of_ext (NewImmutable id).
Proof. unfold rp. intros ->. reflexivity. Qed.

(** The role predicate of a temporal predicate is built from the ID and
    the anchor of that predicate; the role suffix is not used. *)
Lemma rp_Temporal (id : string) (p : Pred) (ta : time_Time) :
  pred_anchor p = Some ta -> rp id (Some p) = of_ext (NewTemporal (ID p) ta).
Proof. unfold rp, Type_, TimeAnchor. intros ->. reflexivity. Qed.

Lemma rp_Temporal_same (id id' : string) (p : Pred) :
  Type_ p = Temporal -> rp id (Some p) = rp id' (Some p).
Proof.
  unfold Type_. destruct (pred_anchor p) as [ta|] eqn:Ha; [|discriminate].
  intros _. rewrite !(rp_Temporal _ _ _ Ha). reflexivity.
Qed.

Lemma rp_no_panic (id : string) (p : Pred) : rp id (Some p) <> Panic.
Proof.
  unfold rp, Type_, TimeAnchor. destruct (pred_anchor p).
  - destruct (NewTemporal _ _); discriminate.
  - destruct (NewImmutable _); discriminate.
Qed.

(** [Reify] changes the world the same way whatever it returns: one line
    printed, one blank node drawn. *)
Lemma Reify_world (t : Triple) (w : World) :
  (Reify t w).2 = {| stdout := stdout w ++ [Triple_String t];
                     blanks := (NewBlankNode (blanks w)).2 |}.
Proof. unfold Reify. cbn. destruct (NewBlankNode (blanks w)). reflexivity. Qed.

(** C2: for a triple whose subject, predicate and object are present and
    whose object holds exactly one variant, a call of [Reify] that returns
    without error returns the blank node drawn by [NewBlankNode] and four
    triples: the receiver itself, then three triples whose subject is that
    blank node, whose predicates are the three role predicates, and whose
    objects are the receiver's subject as a node object, its predicate as
    a predicate object, and its object. *)
Theorem Reify_shape (t : Triple) (w w' : World) (s : Node) (p : Pred) (o : Object)
    (ts : list (option Triple)) (b : Node) :
  t_s t = Some s -> t_p t = Some p -> t_o t = Some o -> exactly_one_of o ->
  Reify t w = (Ok (ts, b), w') ->
  b = (NewBlankNode (blanks w)).1
  /\ length ts = 4
  /\ exists ps pp po : Pred,
       rp "_subject" (Some p) = Ok ps
       /\ rp "_predicate" (Some p) = Ok pp
       /\ rp "_object" (Some p) = Ok po
       /\ ts = [Some t;
                Some (mkTriple (Some b) (Some ps) (Some (NewNodeObject (Some s))));
                Some (mkTriple (Some b) (Some pp) (Some (NewPredicateObject (Some p))));
                Some (mkTriple (Some b) (Some po) (Some o))].
Proof.
  intros Hs Hp Ho [v Hv] HR. apply (f_equal fst) in HR.
  unfold Reify in HR. rewrite Hs, Hp, Ho in HR. cbn [blanks stdout] in HR.
  destruct (NewBlankNode (blanks w)) as [b' supply] eqn:Hb. cbn [fst] in HR |- *.
  destruct (rp "_subject" (Some p)) as [ps| |] eqn:Hps; try discriminate.
  destruct (rp "_predicate" (Some p)) as [pp| |] eqn:Hpp; try discriminate.
  cbn [bind] in HR.
  apply held_one_inv in Hv.
  destruct v; destruct Hv as [x ->]; cbn [obj_l obj_n obj_p NewNodeObject
    NewPredicateObject NewLiteralObject bind] in HR;
    destruct (rp "_object" (Some p)) as [po| |] eqn:Hpo; try discriminate;
    cbn [bind ptr_of NewTriple] in HR; injection HR as <- <-;
    (split; [reflexivity|]; split; [reflexivity|]);
    exists ps, pp, po; repeat split; reflexivity.
Qed.

(** When the three role predicates can be built, [Reify] does return. *)
Lemma Reify_returns (t : Triple) (w : World) (s : Node) (p : Pred) (o : Object)
    (ps pp po : Pred) :
  t_s t = Some s -> t_p t = Some p -> t_o t = Some o -> exactly_one_of o ->
  rp "_subject" (Some p) = Ok ps -> rp "_predicate" (Some p) = Ok pp ->
  rp "_object" (Some p) = Ok po ->
  exists ts b, (Reify t w).1 = Ok (ts, b).
Proof.
  intros Hs Hp Ho [v Hv] Hps Hpp Hpo. unfold Reify. rewrite Hs, Hp, Ho.
  cbn [blanks stdout].
  destruct (NewBlankNode (blanks w)) as [b' supply]. cbn [fst].
  rewrite Hps, Hpp. cbn [bind].
  apply held_one_inv in Hv.
  destruct v; destruct Hv as [x ->]; cbn [obj_l obj_n obj_p NewNodeObject
    NewPredicateObject NewLiteralObject bind]; rewrite Hpo; cbn; eauto.
Qed.

(** *** ParseTriple: the split *)

Lemma re_wf_pSplit : re_wf pSplit = true.
Proof. reflexivity. Qed.

Lemma re_wf_oSplit : re_wf oSplit = true.
Proof. reflexivity. Qed.

Lemma ParseTriple_split (line : string) (b : Builder) :
  (FindIndex pSplit (TrimSpace line) = None \/ FindIndex oSplit (TrimSpace line) = None ->
   ParseTriple line b = Err (ErrSplit (TrimSpace line)))
  /\ (forall raw, ParseTriple line b = Err (ErrSplit raw) ->
      raw = TrimSpace line
      /\ (FindIndex pSplit raw = None \/ FindIndex oSplit raw = None))
  /\ (forall t, ParseTriple line b = Ok t ->
      is_Some (FindIndex pSplit (TrimSpace line))
      /\ is_Some (FindIndex oSplit (TrimSpace line))).
Proof.
  unfold ParseTriple, NewTriple. split; [|split].
  - intros [-> | ->]; [reflexivity|].
    destruct (FindIndex pSplit (TrimSpace line)); reflexivity.
  - intros raw. repeat case_match; intros Hr; inversion Hr; subst; auto.
  - intros t. repeat case_match; intros Hr; inversion Hr; eauto.
Qed.

(** C5: [ParseTriple] needs each pattern to match somewhere in the
    trimmed line, once or more.  When either pattern matches nowhere in
    the trimmed line, it returns the error that names that line: it does
    not panic and returns no triple.  That error is returned in no other
    case, and a triple is returned only when both patterns have a
    match. *)
Theorem ParseTriple_split_error (line : string) (b : Builder) :
  ((forall i j, ~ Matches pSplit (TrimSpace line) i j)
   \/ (forall i j, ~ Matches oSplit (TrimSpace line) i j) ->
   ParseTriple line b = Err (ErrSplit (TrimSpace line)))
  /\ (forall raw, ParseTriple line b = Err (ErrSplit raw) ->
      raw = TrimSpace line
      /\ ((forall i j, ~ Matches pSplit raw i j) \/ (forall i j, ~ Matches oSplit raw i j)))
  /\ (forall t, ParseTriple line b = Ok t ->
      (exists i j, Matches pSplit (TrimSpace line) i j)
      /\ (exists i j, Matches oSplit (TrimSpace line) i j)).
Proof.
  destruct (ParseTriple_split line b) as (H1 & H2 & H3). split; [|split].
  - intros [Hp | Ho]; apply H1.
    + left. apply (GoFacts.FindIndex_None_iff _ _ re_wf_pSplit). exact Hp.
    + right. apply (GoFacts.FindIndex_None_iff _ _ re_wf_oSplit). exact Ho.
  - intros raw Hr. destruct (H2 raw Hr) as [-> [Hp | Ho]]. split; [reflexivity|].
    + left. apply (GoFacts.FindIndex_None_iff _ _ re_wf_pSplit). exact Hp.
    + split; [reflexivity|].
      right. apply (GoFacts.FindIndex_None_iff _ _ re_wf_oSplit). exact Ho.
  - intros t Ht. destruct (H3 t Ht) as [Hp Ho]. split.
    + apply (GoFacts.FindIndex_Some_iff _ _ re_wf_pSplit). exact Hp.
    + apply (GoFacts.FindIndex_Some_iff _ _ re_wf_oSplit). exact Ho.
Qed.

(** X1: when both patterns match and the first match of the object pattern
    starts more than one byte before the closing quote of the first match
    of the subject pattern, the slice expression for the predicate text
    has its bounds out of order, and [ParseTriple] panics. *)
Theorem ParseTriple_panics (line : string) (b : Builder) (idxp idxo : nat * nat) :
  FindIndex pSplit (TrimSpace line) = Some idxp ->
  FindIndex oSplit (TrimSpace line) = Some idxo ->
  idxo.1 + 1 < idxp.2 - 1 ->
  ParseTriple line b = Panic.
Proof.
  intros Hp Ho Hlt. unfold ParseTriple. rewrite Hp, Ho.
  destruct (slice (TrimSpace line) 0 (idxp.1 + 1)); [|reflexivity].
  unfold slice at 1.
  replace (idxp.2 - 1 <=? idxo.1 + 1) with false; [reflexivity|].
  symmetry. apply Nat.leb_gt. exact Hlt.
Qed.

(** *** ParseTriple: the round trip *)

Lemma find_pSplit_here (i : nat) (r : string) :
  find_from pSplit i (String ">" (String tab (String dquote r))) = Some (i, i + 3).
Proof. reflexivity. Qed.

Lemma find_oSplit_here (i : nat) (c : ascii) (r : string) :
  closes oSplit c = true ->
  find_from oSplit i (String "]" (String tab (String c r))) = Some (i, i + 3).
Proof.
  intros Hc. cbn [find_from match_here match_tail].
  change (Ascii.eqb "]" (re_open oSplit)) with true.
  change (re_space tab) with true.
  rewrite (GoFacts.closes_not_space _ _ re_wf_oSplit Hc), Hc. reflexivity.
Qed.

(** The three fields of a line made of three texts and two tabs. *)
Lemma line_slices (ss sp so : string) :
  let raw := ss +:+ String tab (sp +:+ String tab so) in
  slice raw 0 (len ss) = Some ss
  /\ slice raw (len ss + 1) (len ss + 1 + len sp) = Some sp
  /\ slice_from raw (len ss + 1 + len sp + 1) = Some so.
Proof.
  intros raw. subst raw. split; [apply GoFacts.slice_app_l|]. split.
  - change (ss +:+ String tab (sp +:+ String tab so))
      with (ss +:+ (String tab "" +:+ (sp +:+ String tab so))).
    rewrite <- GoFacts.app_assoc.
    replace (len ss + 1) with (len (ss +:+ String tab "")) by apply GoFacts.len_app.
    apply GoFacts.slice_app_mid.
  - change (ss +:+ String tab (sp +:+ String tab so))
      with (ss +:+ (String tab "" +:+ (sp +:+ (String tab "" +:+ so)))).
    rewrite <- !GoFacts.app_assoc.
    replace (len ss + 1 + len sp + 1)
      with (len (((ss +:+ String tab "") +:+ sp) +:+ String tab ""))
      by (rewrite !GoFacts.len_app; reflexivity).
    apply GoFacts.slice_from_app.
Qed.

(** Where the two patterns match in the line of splittable texts. *)
Lemma line_FindIndex (ss sp so : string) :
  splittable ss sp so ->
  let raw := ss +:+ String tab (sp +:+ String tab so) in
  1 <= len ss
  /\ FindIndex pSplit raw = Some (len ss - 1, len ss + 2)
  /\ FindIndex oSplit raw = Some (len ss + len sp, len ss + len sp + 3).
Proof.
  intros (Hs & Hq & Hp & (c & Ho & Hc) & Hps & Hos & Hop) raw. subst raw.
  apply GoFacts.last_inv in Hs as [s0 ->].
  apply GoFacts.first_inv in Ho as [o1 ->].
  assert (Hlen : len (s0 +:+ String ">" "") = len s0 + 1) by apply GoFacts.len_app.
  rewrite Hlen. split; [lia|]. split.
  - apply GoFacts.first_inv in Hq as [p1 ->].
    rewrite GoFacts.app_assoc. rewrite !GoFacts.app_cons, GoFacts.app_nil_l.
    unfold FindIndex. rewrite GoFacts.find_from_skip by (reflexivity || assumption).
    rewrite find_pSplit_here. f_equal. f_equal; lia.
  - apply GoFacts.last_inv in Hp as [p0 Hp0]. rewrite Hp0.
    assert (Hlenp : len (p0 +:+ String "]" "") = len p0 + 1) by apply GoFacts.len_app.
    rewrite Hlenp. rewrite Hp0 in Hop.
    rewrite !GoFacts.app_assoc. rewrite !GoFacts.app_cons, !GoFacts.app_nil_l.
    unfold FindIndex. rewrite GoFacts.find_from_skip by (reflexivity || assumption).
    cbn [find_from match_here].
    change (Ascii.eqb ">" (re_open oSplit)) with false.
    change (Ascii.eqb tab (re_open oSplit)) with false. cbn iota.
    rewrite GoFacts.find_from_skip by (reflexivity || assumption).
    rewrite (find_oSplit_here _ _ _ Hc). f_equal. f_equal; lia.
Qed.

(** C3, as amended: a triple whose line has no white space at either end,
    whose three texts are splittable, and whose subject, predicate and
    object are each parsed back from their own text, is parsed back from
    its line. *)
Theorem ParseTriple_String_roundtrip (t : Triple) (b : Builder)
    (s : Node) (p : Pred) (o : Object) :
  t_s t = Some s -> t_p t = Some p -> t_o t = Some o ->
  TrimSpace (Triple_String t) = Triple_String t ->
  splittable (node_String s) (predicate_String p) (Object_String o) ->
  node_Parse (node_String s) = inl s ->
  predicate_Parse (predicate_String p) = inl p ->
  ParseObject (Object_String o) b = Ok o ->
  ParseTriple (Triple_String t) b = Ok t.
Proof.
  intros Hs Hp Ho Htrim Hsplit HPs HPp HPo.
  unfold ParseTriple. rewrite Htrim.
  destruct t as [ts tp to_]. cbn in Hs, Hp, Ho. subst ts tp to_.
  unfold Triple_String. cbn [t_s t_p t_o fmt_ptr].
  destruct (line_FindIndex _ _ _ Hsplit) as (Hlen & -> & ->).
  destruct (line_slices (node_String s) (predicate_String p) (Object_String o))
    as (Hss & Hsp & Hso).
  cbn [fst snd].
  replace (len (node_String s) - 1 + 1) with (len (node_String s)) by lia.
  replace (len (node_String s) + 2 - 1) with (len (node_String s) + 1) by lia.
  replace (len (node_String s) + len (predicate_String p) + 1)
    with (len (node_String s) + 1 + len (predicate_String p)) by lia.
  replace (len (node_String s) + len (predicate_String p) + 3 - 1)
    with (len (node_String s) + 1 + len (predicate_String p) + 1) by lia.
  rewrite Hss, Hsp, Hso, HPs, HPp, HPo. reflexivity.
Qed.

End Facts.
End TripleFacts.

(* ===================================================================== *)
(** ** Properties of package [semantic]                                    *)
(* ===================================================================== *)

Module SemanticFacts.
Import Go Triple Semantic.

(** *** The insertion sort is a [sort.Sort] *)

Lemma exchange_cons {A} (a : A) (l : list A) (i j : nat) :
  exchange (a :: l) (S i) (S j) = a :: exchange l i j.
Proof.
  unfold exchange. cbn. destruct (l !! i), (l !! j); reflexivity.
Qed.

Lemma exchange_adjacent {A} (pre : list A) (z x : A) (rest : list A) :
  exchange (pre ++ z :: x :: rest) (S (length pre)) (length pre) = pre ++ x :: z :: rest.
Proof.
  induction pre as [|a pre IH]; [reflexivity|].
  cbn [app length]. rewrite exchange_cons, IH. reflexivity.
Qed.

Section Sorting.
Context {D A : Type} (I : Interface D) (Inv : D -> Prop)
        (view : D -> list A) (lt : A -> A -> bool).
Hypothesis HS : Sortable I Inv view lt.

Lemma lt_asym (x y : A) : lt x y = true -> lt y x = false.
Proof.
  intros Hxy. destruct (lt y x) eqn:Hyx; [|reflexivity].
  pose proof (sortable_trans _ _ _ _ HS _ _ _ Hxy Hyx) as Hxx.
  rewrite (sortable_irrefl _ _ _ _ HS) in Hxx. discriminate.
Qed.

Lemma ascending_snoc (l : list A) (z : A) :
  ascending lt (l ++ [z]) <-> ascending lt l /\ Forall (fun y => lt z y = false) l.
Proof.
  unfold ascending. rewrite StronglySorted_app, Forall_forall. split.
  - intros (H1 & H2 & _). split; [exact H2|].
    intros y Hy. apply H1; [exact Hy|]. apply list_elem_of_singleton. reflexivity.
  - intros (H1 & H2). split; [|split; [exact H1|]].
    + intros y z' Hy Hz. apply list_elem_of_singleton in Hz as ->. auto.
    + repeat constructor.
Qed.

(** The inner loop: the element at [j] sinks into the sorted elements
    before it; the elements after it stay. *)
Lemma insert_down_spec (j : nat) : forall (d : D) (pre : list A) (x : A) (rest : list A),
  Inv d -> view d = pre ++ x :: rest -> length pre = j -> ascending lt pre ->
  exists d' l', insert_down I j d = Some d' /\ Inv d' /\
    view d' = l' ++ rest /\ l' ≡ₚ pre ++ [x] /\ ascending lt l'.
Proof.
  induction j as [|j IH]; intros d pre x rest Hd Hv Hlen Hpre.
  - destruct pre; [|discriminate]. exists d, [x]. cbn.
    repeat split; auto. repeat constructor.
  - revert Hv Hlen Hpre. destruct pre as [|z pre' _] using rev_ind; [discriminate|].
    intros Hv Hlen Hpre. rewrite length_app in Hlen. cbn in Hlen.
    assert (Hj : length pre' = j) by lia.
    rewrite <- app_assoc in Hv. cbn [app] in Hv.
    assert (Hz : view d !! j = Some z).
    { rewrite Hv. apply list_lookup_middle. auto. }
    assert (Hx : view d !! S j = Some x).
    { rewrite Hv. change (pre' ++ z :: x :: rest) with (pre' ++ [z] ++ x :: rest).
      rewrite app_assoc. apply list_lookup_middle. rewrite length_app. cbn. lia. }
    cbn [insert_down].
    rewrite (sortable_Less _ _ _ _ HS d (S j) j x z Hd Hx Hz).
    apply ascending_snoc in Hpre as [Hpre' Hzs].
    destruct (lt x z) eqn:Hxz.
    + assert (Hl : S j < length (view d) /\ j < length (view d)).
      { apply lookup_lt_Some in Hx. lia. }
      destruct (sortable_Swap _ _ _ _ HS d (S j) j Hd (proj1 Hl) (proj2 Hl))
        as (d1 & -> & Hd1 & Hv1).
      rewrite Hv, <- Hj, exchange_adjacent in Hv1.
      destruct (IH d1 pre' x (z :: rest) Hd1 Hv1 Hj Hpre')
        as (d' & l1 & -> & Hd' & Hv' & Hperm & Hl1).
      exists d', (l1 ++ [z]). split; [reflexivity|]. split; [exact Hd'|].
      split; [rewrite Hv', <- app_assoc; reflexivity|]. split.
      * rewrite Hperm, <- !app_assoc. apply Permutation_app_head. apply perm_swap.
      * apply ascending_snoc. split; [exact Hl1|].
        rewrite Hperm. apply Forall_app. split; [exact Hzs|].
        constructor; [|constructor]. apply lt_asym. exact Hxz.
    + exists d, ((pre' ++ [z]) ++ [x]). split; [reflexivity|]. split; [exact Hd|].
      split; [rewrite Hv, <- !app_assoc; reflexivity|]. split; [reflexivity|].
      apply ascending_snoc. split; [apply ascending_snoc; auto|].
      apply Forall_app. split; [|constructor; [exact Hxz|constructor]].
      eapply Forall_impl; [exact Hzs|]. cbn. intros y Hzy.
      exact (sortable_incomp _ _ _ _ HS x z y Hxz Hzy).
Qed.

Lemma insertion_loop_spec (todo : nat) : forall (i : nat) (d : D) (done rest : list A),
  Inv d -> view d = done ++ rest -> length done = i -> length rest = todo ->
  ascending lt done ->
  exists d', insertion_loop I i todo d = Some d' /\ Inv d' /\
    view d' ≡ₚ view d /\ ascending lt (view d').
Proof.
  induction todo as [|todo IH]; intros i d done rest Hd Hv Hi Htodo Hdone.
  - destruct rest; [|discriminate]. rewrite app_nil_r in Hv.
    exists d. rewrite Hv. auto.
  - destruct rest as [|x rest]; [discriminate|]. cbn [insertion_loop].
    destruct (insert_down_spec i d done x rest Hd Hv Hi Hdone)
      as (d1 & l1 & -> & Hd1 & Hv1 & Hperm & Hl1).
    assert (Hlen : length l1 = S i).
    { rewrite Hperm, length_app. cbn. lia. }
    destruct (IH (S i) d1 l1 rest Hd1 Hv1 Hlen ltac:(cbn in Htodo; lia) Hl1)
      as (d' & -> & Hd' & Hperm' & Hsorted).
    exists d'. repeat split; auto.
    rewrite Hperm', Hv1, Hv, Hperm, <- app_assoc. reflexivity.
Qed.

Lemma insertionSort_spec (d : D) :
  Inv d ->
  exists d', insertionSort D I d = Some d' /\ Inv d' /\
    view d' ≡ₚ view d /\ ascending lt (view d').
Proof.
  intros Hd. unfold insertionSort. rewrite (sortable_Len _ _ _ _ HS d Hd).
  destruct (view d) as [|x rest] eqn:Hv.
  - exists d. cbn. rewrite Hv. repeat split; auto. constructor.
  - destruct (insertion_loop_spec (length rest) 1 d [x] rest Hd Hv eq_refl eq_refl
                ltac:(repeat constructor)) as (d' & He & Hd' & Hp & Hsorted).
    exists d'. rewrite Hv in Hp.
    replace (length (x :: rest) - 1) with (length rest) by (cbn; lia). auto.
Qed.

End Sorting.

(** *** Slices and the store *)

Section StateFacts.
Context `{C : Collaborators} `{R : Runtime}.

Lemma Specificity_arms (c : GraphClause) : Specificity c = arms c /\ arms c <= 3.
Proof. unfold Specificity, arms. destruct (S_ c), (P_ c), (O_ c); cbn; lia. Qed.

Lemma elems_length (arrs : gmap loc (list (option loc))) (s : slice) :
  slice_ok arrs s -> length (elems arrs s) = slen s.
Proof.
  unfold slice_ok, elems. destruct (base s) as [a|].
  - intros (arr & -> & Hlen & _). cbn. rewrite length_take. lia.
  - intros ->. reflexivity.
Qed.

(** [append] adds the element at the end and keeps what was there. *)
Lemma append_elems (arrs : gmap loc (list (option loc))) (s : slice) (x : option loc) :
  slice_ok arrs s ->
  let '(arrs', s') := append arrs s x in
  elems arrs' s' = elems arrs s ++ [x] /\ slice_ok arrs' s'.
Proof.
  intros Hok. pose proof (elems_length _ _ Hok) as Hlen. unfold append.
  assert (Hnew : forall a' : loc,
    let newcap := growslice_cap (scap s) (slen s + 1) in
    let arr' := elems arrs s ++ x :: replicate (newcap - (slen s + 1)) None in
    elems (<[a' := arr']> arrs) (mkSlice (Some a') (slen s + 1) newcap)
      = elems arrs s ++ [x]
    /\ slice_ok (<[a' := arr']> arrs) (mkSlice (Some a') (slen s + 1) newcap)).
  { intros a' newcap arr'. unfold elems at 1, slice_ok. cbn [base slen scap].
    rewrite lookup_insert_eq. cbn [default]. split.
    - subst arr'. change (x :: replicate (newcap - (slen s + 1)) None)
        with ([x] ++ replicate (newcap - (slen s + 1)) None :> list (option loc)).
      rewrite app_assoc. apply take_app_length'. rewrite length_app, Hlen. reflexivity.
    - exists arr'. split; [reflexivity|]. subst arr'.
      rewrite length_app, Hlen. cbn [length]. rewrite length_replicate. lia. }
  unfold slice_ok in Hok. destruct (base s) as [a|] eqn:Hb; [|apply Hnew].
  destruct Hok as (arr & Harr & Hl & Hc).
  destruct (slen s <? scap s) eqn:Hlt; [|apply Hnew].
  apply Nat.ltb_lt in Hlt. unfold elems, slice_ok. cbn [base slen scap].
  rewrite Hb, lookup_alter_eq, Harr.
  cbn [fmap option_fmap option_map default from_option id]. unfold id. split.
  - rewrite Nat.add_1_r. erewrite take_S_r; [|apply list_lookup_insert_eq; lia].
    rewrite take_insert_ge by lia. reflexivity.
  - exists (<[slen s := x]> arr). rewrite length_insert. split; [reflexivity|lia].
Qed.

Lemma valid_ptr_alloc (st st' : State) (x : option loc) :
  dom (clauses st) ⊆ dom (clauses st') -> valid_ptr st x -> valid_ptr st' x.
Proof. unfold valid_ptr. intros Hsub Hx l Hl. apply Hsub. auto. Qed.

(** *** The invariant is kept *)

Lemma wf_zero : wf State_zero.
Proof.
  unfold wf, State_zero, slice_ok, valid_ptr. cbn. repeat split; auto.
  intros l. discriminate.
Qed.

Lemma wf_ResetWorkingGraphClause (st : State) : wf st -> wf (ResetWorkingGraphClause st).
Proof.
  intros (Hok & Hel & Hw). unfold wf, ResetWorkingGraphClause. cbn.
  split; [exact Hok|]. split.
  - eapply Forall_impl; [exact Hel|]. intros x Hx l Hl. cbn.
    rewrite dom_insert_L. apply elem_of_union_r. auto.
  - intros l [= <-]. cbn. rewrite dom_insert_L. apply elem_of_union_l.
    apply elem_of_singleton. reflexivity.
Qed.

Lemma wf_AddWorkingGrpahClause (st : State) : wf st -> wf (AddWorkingGrpahClause st).
Proof.
  intros (Hok & Hel & Hw). unfold AddWorkingGrpahClause.
  pose proof (append_elems (arrays st) (pattern (stmt st)) (workingClause (stmt st)) Hok)
    as Happ.
  destruct (append (arrays st) (pattern (stmt st)) (workingClause (stmt st)))
    as [arrs ptrn]. destruct Happ as [Hel' Hok'].
  apply wf_ResetWorkingGraphClause. unfold wf. cbn.
  split; [exact Hok'|]. split; [|exact Hw].
  rewrite Hel'. apply Forall_app. split; [exact Hel|]. constructor; [exact Hw|constructor].
Qed.

Lemma wf_update_clause (st : State) (c : loc) (f : GraphClause -> GraphClause) :
  wf st -> wf (update_clause c f st).
Proof.
  intros (Hok & Hel & Hw). unfold wf, update_clause, valid_ptr. cbn.
  rewrite dom_alter_L. auto.
Qed.

Lemma no_nil_AddWorkingGrpahClause (st : State) :
  wf st -> no_nil_clause st -> workingClause (stmt st) <> None ->
  no_nil_clause (AddWorkingGrpahClause st).
Proof.
  intros (Hok & _ & _) Hnn Hw. unfold no_nil_clause, AddWorkingGrpahClause.
  pose proof (append_elems (arrays st) (pattern (stmt st)) (workingClause (stmt st)) Hok)
    as Happ.
  destruct (append (arrays st) (pattern (stmt st)) (workingClause (stmt st)))
    as [arrs ptrn]. destruct Happ as [Hel' _]. cbn.
  rewrite Hel'. apply Forall_app. split; [exact Hnn|]. constructor; [exact Hw|constructor].
Qed.

Lemma no_nil_update_clause (st : State) (c : loc) (f : GraphClause -> GraphClause) :
  no_nil_clause st -> no_nil_clause (update_clause c f st).
Proof. unfold no_nil_clause, update_clause. cbn. auto. Qed.

(** *** Sorting by specificity *)

Lemma key_deref (st : State) (x : option loc) :
  key (clauses st) x = Specificity (default GraphClause_zero (deref st x)).
Proof.
  unfold key, deref. destruct x as [l|]; [|reflexivity].
  destruct (clauses st !! l); reflexivity.
Qed.

Lemma bySpecificity_Sortable (st0 : State) (s : slice) :
  Sortable (bySpecificity s) (sort_inv st0 s) (fun st => elems (arrays st) s)
           (less (clauses st0)).
Proof.
  split.
  - intros st (_ & _ & Hok & _). cbn. unfold bySpecificity_Len.
    symmetry. apply elems_length. exact Hok.
  - intros st i j x y (_ & Hcl & _ & Hall) Hx Hy. cbn. unfold bySpecificity_Less.
    rewrite Hx, Hy.
    pose proof (Forall_lookup_1 _ _ _ _ Hall Hx) as [ci Hci].
    pose proof (Forall_lookup_1 _ _ _ _ Hall Hy) as [cj Hcj].
    assert (Hd : forall z, deref st z = deref st0 z).
    { intros z. unfold deref. rewrite Hcl. reflexivity. }
    rewrite !Hd, Hci, Hcj. unfold less. rewrite !key_deref, Hci, Hcj. reflexivity.
  - intros st i j (Hst & Hcl & Hok & Hall) Hi Hj. cbn. unfold bySpecificity_Swap.
    pose proof (elems_length _ _ Hok) as Hlen.
    unfold slice_ok in Hok. unfold elems in Hi, Hj, Hall, Hlen |- *.
    destruct (base s) as [a|] eqn:Hb; [|cbn in Hi; lia].
    destruct Hok as (arr & Harr & Hl & Hc). rewrite Harr in *. cbn [default] in *.
    unfold id in *.
    destruct (lookup_lt_is_Some_2 _ _ Hi) as [x Hx].
    destruct (lookup_lt_is_Some_2 _ _ Hj) as [y Hy].
    rewrite Hx, Hy. eexists. split; [reflexivity|].
    assert (Hnew : take (slen s) (<[j:=x]> (<[i:=y]> arr))
                   = exchange (take (slen s) arr) i j).
    { unfold exchange. rewrite Hx, Hy.
      rewrite !take_insert_lt by lia. reflexivity. }
    split; [|cbn; rewrite lookup_alter_eq, Harr; exact Hnew].
    unfold sort_inv, slice_ok, elems. cbn. rewrite Hb, lookup_alter_eq, Harr. cbn.
    split; [exact Hst|]. split; [exact Hcl|]. split.
    + eexists. split; [reflexivity|]. rewrite !length_insert. lia.
    + rewrite !take_insert_lt by lia.
      apply Forall_insert; [apply Forall_insert; [exact Hall|]|].
      * exact (Forall_lookup_1 _ _ _ _ Hall Hy).
      * exact (Forall_lookup_1 _ _ _ _ Hall Hx).
  - intros x. unfold less. apply Nat.ltb_irrefl.
  - intros x y z. unfold less. rewrite !Nat.ltb_lt. lia.
  - intros x y z. unfold less. rewrite !Nat.ltb_ge. lia.
Qed.

Lemma mapM_total {X Y} (f : X -> option Y) (dflt : Y) (l : list X) :
  Forall (fun x => is_Some (f x)) l ->
  mapM f l = Some ((fun x => default dflt (f x)) <$> l).
Proof.
  intros Hall. apply mapM_Some_2. induction Hall as [|x l [y Hy] _ IH]; cbn.
  - constructor.
  - constructor; [rewrite Hy; reflexivity|exact IH].
Qed.

Lemma StronglySorted_lookup {X} (Rel : X -> X -> Prop) (l : list X) :
  StronglySorted Rel l ->
  forall i j a b, i < j -> l !! i = Some a -> l !! j = Some b -> Rel a b.
Proof.
  induction 1 as [|x l Hl IH Hx]; intros i j a b Hij Ha Hb.
  - destruct i; discriminate.
  - destruct j as [|j]; [lia|]. cbn in Hb. destruct i as [|i].
    + cbn in Ha. injection Ha as <-.
      exact (Forall_lookup_1 _ _ _ _ Hx Hb).
    + cbn in Ha. apply (IH i j); auto. lia.
Qed.

(** What [SortedGraphPatternClauses] does to a statement whose committed
    pointers all designate clauses. *)
Lemma SortedGraphPatternClauses_spec `{!RuntimeLaws} (st : State) :
  wf st -> no_nil_clause st ->
  exists st' cs0 cs,
    SortedGraphPatternClauses st = Some (pattern (stmt st), st')
    /\ stmt st' = stmt st /\ clauses st' = clauses st
    /\ (wf st' /\ no_nil_clause st')
    /\ clauses_of st (pattern (stmt st)) = Some cs0
    /\ clauses_of st' (pattern (stmt st)) = Some cs
    /\ cs ≡ₚ cs0 /\ non_increasing cs.
Proof.
  intros (Hok & Hel & Hw) Hnn. set (s := pattern (stmt st)) in *.
  assert (Hall : Forall (fun x => is_Some (deref st x)) (elems (arrays st) s)).
  { apply Forall_lookup. intros i x Hx.
    pose proof (Forall_lookup_1 _ _ _ _ Hel Hx) as Hv.
    pose proof (Forall_lookup_1 _ _ _ _ Hnn Hx) as Hn.
    destruct x as [l|]; [|congruence]. cbn. apply elem_of_dom. apply Hv. reflexivity. }
  assert (Hinv : sort_inv st s st) by (unfold sort_inv; auto).
  destruct (sort_Sort_sorts _ _ _ _ _ _ st (bySpecificity_Sortable st s) Hinv)
    as (st' & Hsort & (Hst' & Hcl' & Hok' & Hall') & Hperm & Hasc).
  exists st', ((fun x => default GraphClause_zero (deref st x)) <$> elems (arrays st) s),
         ((fun x => default GraphClause_zero (deref st x)) <$> elems (arrays st') s).
  unfold SortedGraphPatternClauses. fold s. rewrite Hsort.
  split; [reflexivity|]. split; [exact Hst'|]. split; [exact Hcl'|].
  split.
  { unfold wf, no_nil_clause, valid_ptr. rewrite Hst', Hcl'. fold s.
    split; [split; [exact Hok'|split; [|exact Hw]]|].
    - eapply Forall_impl; [exact Hall'|]. cbn. intros x Hx l ->.
      apply elem_of_dom. exact Hx.
    - eapply Forall_impl; [exact Hall'|]. cbn. intros x [c Hx] ->. discriminate. }
  split; [apply mapM_total; exact Hall|]. split.
  - unfold clauses_of. erewrite mapM_ext; [apply mapM_total; exact Hall'|].
    intros x. unfold deref. rewrite Hcl'. reflexivity.
  - split; [rewrite Hperm; reflexivity|].
    assert (Hs : StronglySorted (fun a b => Specificity b <= Specificity a)
               ((fun x => default GraphClause_zero (deref st x)) <$> elems (arrays st') s)).
    { eapply StronglySorted_fmap; [|exact Hasc]. cbn.
      intros x y Hxy. unfold less in Hxy. rewrite !key_deref in Hxy.
      apply Nat.ltb_ge in Hxy. exact Hxy. }
    intros i j ci cj Hij Hi Hj.
    destruct (decide (i = j)) as [->|Hne].
    + rewrite Hi in Hj. injection Hj as <-. lia.
    + apply (StronglySorted_lookup _ _ Hs i j); auto. lia.
Qed.

(** C8: on a statement whose committed pointers all designate clauses,
    [SortedGraphPatternClauses] returns, and the clauses of the slice it
    returns are those of the pattern, in an order in which no clause is
    more specific than one before it; the specificity of a clause is the
    number, from 0 to 3, of its arms [S], [P], [O] that are not nil.
    This holds for every [sort.Sort] that keeps the contract of the
    library, whatever it does with clauses of equal specificity. *)
Theorem SortedGraphPatternClauses_descending `{!RuntimeLaws} (st : State) :
  wf st -> no_nil_clause st ->
  exists r st' cs0 cs,
    SortedGraphPatternClauses st = Some (r, st')
    /\ clauses_of st (GraphPatternClauses st) = Some cs0
    /\ clauses_of st' r = Some cs
    /\ cs ≡ₚ cs0
    /\ non_increasing cs
    /\ Forall (fun c => Specificity c = arms c /\ arms c <= 3) cs.
Proof.
  intros Hwf Hnn.
  destruct (SortedGraphPatternClauses_spec st Hwf Hnn)
    as (st' & cs0 & cs & Hs & _ & _ & _ & H0 & H1 & Hperm & Hni).
  exists (pattern (stmt st)), st', cs0, cs. repeat split; auto.
  apply Forall_forall. intros c _. apply Specificity_arms.
Qed.

(** C10: [SortedGraphPatternClauses] sorts the statement's own pattern:
    the slice it returns is the one [GraphPatternClauses] returned before
    and returns after the call, the clauses themselves are unchanged, and
    read after the call the pattern holds them in sorted order, which is
    not the order of commit unless that was sorted already. *)
Theorem SortedGraphPatternClauses_in_place `{!RuntimeLaws} (st : State) :
  wf st -> no_nil_clause st ->
  exists r st' cs0 cs,
    SortedGraphPatternClauses st = Some (r, st')
    /\ r = GraphPatternClauses st
    /\ GraphPatternClauses st' = r
    /\ clauses st' = clauses st
    /\ clauses_of st (GraphPatternClauses st) = Some cs0
    /\ clauses_of st' (GraphPatternClauses st') = Some cs
    /\ cs ≡ₚ cs0
    /\ non_increasing cs
    /\ (~ non_increasing cs0 -> cs <> cs0).
Proof.
  intros Hwf Hnn.
  destruct (SortedGraphPatternClauses_spec st Hwf Hnn)
    as (st' & cs0 & cs & Hs & Hst & Hcl & _ & H0 & H1 & Hperm & Hni).
  exists (pattern (stmt st)), st', cs0, cs. unfold GraphPatternClauses. rewrite Hst.
  repeat split; auto. intros Hno ->. auto.
Qed.

(** *** Commit *)

(** C9: after the working clause is committed, the statement has a new
    working clause, and writing to it through the handle leaves the
    pattern as it was: the same slice, the same pointers (those committed
    before and the one just committed), each designating the same clause
    as before the write. *)
Theorem commit_isolation (st : State) (f : GraphClause -> GraphClause) :
  wf st ->
  exists w,
    WorkingClause (AddWorkingGrpahClause st) = Some w
    /\ (Some w ∉ elems (arrays (AddWorkingGrpahClause st))
                       (GraphPatternClauses (AddWorkingGrpahClause st)))
    /\ elems (arrays (AddWorkingGrpahClause st))
             (GraphPatternClauses (AddWorkingGrpahClause st))
       = elems (arrays st) (GraphPatternClauses st) ++ [WorkingClause st]
    /\ GraphPatternClauses (update_clause w f (AddWorkingGrpahClause st))
       = GraphPatternClauses (AddWorkingGrpahClause st)
    /\ elems (arrays (update_clause w f (AddWorkingGrpahClause st)))
             (GraphPatternClauses (update_clause w f (AddWorkingGrpahClause st)))
       = elems (arrays (AddWorkingGrpahClause st))
               (GraphPatternClauses (AddWorkingGrpahClause st))
    /\ Forall (fun x => deref (update_clause w f (AddWorkingGrpahClause st)) x
                        = deref (AddWorkingGrpahClause st) x
                        /\ deref (AddWorkingGrpahClause st) x = deref st x)
              (elems (arrays (AddWorkingGrpahClause st))
                     (GraphPatternClauses (AddWorkingGrpahClause st))).
Proof.
  intros (Hok & Hel & Hw).
  unfold AddWorkingGrpahClause, WorkingClause, GraphPatternClauses.
  pose proof (append_elems (arrays st) (pattern (stmt st)) (workingClause (stmt st)) Hok)
    as Happ.
  destruct (append (arrays st) (pattern (stmt st)) (workingClause (stmt st)))
    as [arrs ptrn]. destruct Happ as [Hel' Hok'].
  unfold ResetWorkingGraphClause, update_clause. cbn.
  set (w := fresh (dom (clauses st))).
  assert (Hfresh : w ∉ dom (clauses st)) by apply is_fresh.
  assert (Hall : Forall (valid_ptr st) (elems arrs ptrn)).
  { rewrite Hel'. apply Forall_app. split; [exact Hel|].
    constructor; [exact Hw|constructor]. }
  assert (Hnot : Some w ∉ elems arrs ptrn).
  { intros Hin. rewrite Forall_forall in Hall. apply Hfresh. apply (Hall _ Hin). reflexivity. }
  exists w. split; [reflexivity|]. split; [exact Hnot|]. split; [exact Hel'|].
  split; [reflexivity|]. split; [reflexivity|].
  apply Forall_forall. intros x Hx. unfold deref. cbn.
  destruct x as [l|]; [|auto].
  assert (Hne : w <> l) by (intros ->; exact (Hnot Hx)).
  rewrite lookup_alter_ne, lookup_insert_ne by exact Hne. auto.
Qed.

End StateFacts.

End SemanticFacts.

(* ===================================================================== *)
(** ** More on package [triple]                                            *)
(* ===================================================================== *)

Module TripleMore.
Import Go Triple TripleFacts.

(** Two ways of cutting the same text in two. *)
Lemma app_eq_inv (a b a' b' : string) :
  a +:+ b = a' +:+ b' -> len a <= len a' ->
  exists m, a' = a +:+ m /\ b = m +:+ b'.
Proof.
  revert a'. induction a as [|x a IH]; intros a' Heq Hlen.
  - exists a'. rewrite !GoFacts.app_nil_l in *. auto.
  - destruct a' as [|x' a']; [rewrite GoFacts.len_cons in Hlen; cbn in Hlen; lia|].
    rewrite !GoFacts.app_cons in Heq. injection Heq as -> Heq.
    rewrite !GoFacts.len_cons in Hlen.
    destruct (IH a' Heq ltac:(lia)) as (m & -> & ->).
    exists m. rewrite GoFacts.app_cons. auto.
Qed.

Lemma all_space_app (a b : string) :
  all_space (a +:+ b) = all_space a && all_space b.
Proof.
  induction a as [|x a IH]; [reflexivity|].
  rewrite GoFacts.app_cons. cbn [all_space]. rewrite IH, andb_assoc. reflexivity.
Qed.

Lemma Matches_len (re : Regexp) (s : string) (i j : nat) :
  Matches re s i j -> j <= len s.
Proof.
  intros (pre & ws & c & post & -> & <- & _ & _ & _ & ->).
  rewrite GoFacts.len_app, GoFacts.len_cons, GoFacts.len_app, GoFacts.len_cons. lia.
Qed.

(** The line around the first matches of the two patterns, when the match
    of the object pattern does not start before that of the subject
    pattern: a text that ends with [>], white space, a text from a quote
    to a bracket, white space, and a text that starts with a slash or a
    quote. *)
Lemma split_fields (raw : string) (i j i' j' : nat) :
  Matches pSplit raw i j -> Matches oSplit raw i' j' -> i <= i' ->
  exists pre ws m ws' c' post',
    raw = (pre +:+ ">") +:+ ws +:+ (String dquote m +:+ "]") +:+ ws' +:+ String c' post'
    /\ ws <> EmptyString /\ all_space ws = true
    /\ ws' <> EmptyString /\ all_space ws' = true
    /\ closes oSplit c' = true
    /\ i = len pre /\ j = len pre + 1 + len ws + 1
    /\ i' = len pre + 1 + len ws + 1 + len m /\ j' = i' + 1 + len ws' + 1.
Proof.
  intros (pre & ws & c & post & Hraw & Hi & Hne & Hws & Hc & Hj)
         (pre' & ws' & c' & post' & Hraw' & Hi' & Hne' & Hws' & Hc' & Hj') Hle.
  assert (c = dquote) as ->.
  { unfold closes in Hc. cbn in Hc. rewrite orb_false_r in Hc.
    apply Ascii.eqb_eq in Hc. exact Hc. }
  rewrite Hraw in Hraw'.
  destruct (app_eq_inv _ _ _ _ Hraw' ltac:(lia)) as (m0 & -> & Hrest).
  destruct m0 as [|x m1].
  { rewrite GoFacts.app_nil_l in Hrest. discriminate. }
  rewrite GoFacts.app_cons in Hrest. injection Hrest as <- Hrest.
  destruct (Nat.le_gt_cases (len ws) (len m1)) as [Hlen | Hlen].
  - destruct (app_eq_inv _ _ _ _ Hrest Hlen) as (m2 & -> & Hrest2).
    destruct m2 as [|y m3].
    { rewrite GoFacts.app_nil_l in Hrest2. discriminate. }
    rewrite GoFacts.app_cons in Hrest2. injection Hrest2 as <- Hpost.
    exists pre, ws, m3, ws', c', post'.
    split.
    { rewrite Hraw, Hpost. rewrite !GoFacts.app_assoc, !GoFacts.app_cons.
      rewrite !GoFacts.app_nil_l. reflexivity. }
    assert (Hi'' : i' = len pre + 1 + len ws + 1 + len m3).
    { rewrite <- Hi'.
      rewrite GoFacts.len_app, GoFacts.len_cons, GoFacts.len_app, GoFacts.len_cons. lia. }
    split; [exact Hne|]. split; [exact Hws|]. split; [exact Hne'|].
    split; [exact Hws'|]. split; [exact Hc'|]. split; [symmetry; exact Hi|].
    split; [lia|]. split; [exact Hi''|]. exact Hj'.
  - symmetry in Hrest.
    destruct (app_eq_inv _ _ _ _ Hrest ltac:(lia)) as (m2 & -> & Hrest2).
    destruct m2 as [|y m3].
    { rewrite GoFacts.app_nil_r in Hlen. lia. }
    rewrite GoFacts.app_cons in Hrest2. injection Hrest2 as <- _.
    rewrite all_space_app in Hws. apply andb_true_iff in Hws as [_ Hws].
    cbn in Hws. discriminate.
Qed.

(** *** The base64 encoding loses nothing *)

Lemma lor_add (x y k : N) : (y < 2 ^ k -> N.lor (x * 2 ^ k) y = x * 2 ^ k + y)%N.
Proof.
  intros H. rewrite <- N.lxor_lor, <- N.add_nocarry_lxor; auto.
  all: apply N.bits_inj; intros n; rewrite N.land_spec, N.bits_0;
    destruct (N.lt_ge_cases n k) as [Hn|Hn];
    [rewrite N.mul_pow2_bits_low by exact Hn; reflexivity|
     rewrite <- (N.mod_small y (2^k)) by exact H;
     rewrite N.mod_pow2_bits_high by exact Hn; apply andb_false_r].
Qed.

Lemma word3 (a b c : N) :
  (a < 256 -> b < 256 -> c < 256 ->
   N.lor (N.lor (N.shiftl a 16) (N.shiftl b 8)) c = a * 65536 + b * 256 + c)%N.
Proof.
  intros Ha Hb Hc. rewrite !N.shiftl_mul_pow2.
  rewrite (lor_add a (b * 2 ^ 8) 16)
    by (change (2 ^ 16)%N with 65536%N; change (2 ^ 8)%N with 256%N; lia).
  replace (a * 2 ^ 16 + b * 2 ^ 8)%N with ((a * 256 + b) * 2 ^ 8)%N
    by (change (2 ^ 16)%N with 65536%N; change (2 ^ 8)%N with 256%N; lia).
  rewrite lor_add by (change (2 ^ 8)%N with 256%N; exact Hc).
  change (2 ^ 8)%N with 256%N. lia.
Qed.

Lemma word2 (a b : N) :
  (a < 256 -> b < 256 -> N.lor (N.shiftl a 16) (N.shiftl b 8) = a * 65536 + b * 256)%N.
Proof.
  intros Ha Hb. rewrite !N.shiftl_mul_pow2.
  rewrite (lor_add a (b * 2 ^ 8) 16)
    by (change (2 ^ 16)%N with 65536%N; change (2 ^ 8)%N with 256%N; lia).
  change (2 ^ 16)%N with 65536%N; change (2 ^ 8)%N with 256%N. lia.
Qed.

Lemma word1 (a : N) : N.shiftl a 16 = (a * 65536)%N.
Proof. rewrite N.shiftl_mul_pow2. reflexivity. Qed.

(** A number below 2^24 is its four digits of six bits. *)
Lemma six_bit_digits (v : N) :
  (v < 16777216 ->
   v = ((v / 262144) mod 64) * 262144 + ((v / 4096) mod 64) * 4096
       + ((v / 64) mod 64) * 64 + v mod 64)%N.
Proof. intros. zify. Z.to_euclidean_division_equations. lia. Qed.

Lemma land_63 (v : N) : N.land v 63 = (v mod 64)%N.
Proof. exact (N.land_ones v 6). Qed.

Lemma digit_value_digit (v : N) : digit_value (digit v) = N.land v 63.
Proof.
  assert (Hall : forallb (fun k => N.eqb (digit_value (digit (N.of_nat k))) (N.of_nat k))
                         (seq 0 64) = true) by (vm_compute; reflexivity).
  rewrite forallb_forall in Hall.
  assert (Hlt : (N.land v 63 < 64)%N).
  { rewrite land_63. apply N.mod_lt. discriminate. }
  assert (Hd : digit v = digit (N.land v 63)).
  { unfold digit. rewrite <- N.land_assoc. reflexivity. }
  rewrite Hd. specialize (Hall (N.to_nat (N.land v 63))).
  rewrite N2Nat.id in Hall. apply N.eqb_eq, Hall.
  apply list_elem_of_In, elem_of_seq. lia.
Qed.

Lemma digit_not_pad (v : N) : digit v <> "="%char.
Proof.
  intros H. pose proof (digit_value_digit v) as Hv. rewrite H in Hv.
  assert (Hlt : (N.land v 63 < 64)%N).
  { rewrite land_63. apply N.mod_lt. discriminate. }
  rewrite <- Hv in Hlt. vm_compute in Hlt. discriminate.
Qed.

Lemma digit_eq (u v k : N) :
  digit (N.shiftr u k) = digit (N.shiftr v k) ->
  ((u / 2 ^ k) mod 64 = (v / 2 ^ k) mod 64)%N.
Proof.
  intros H. apply (f_equal digit_value) in H.
  rewrite !digit_value_digit, !land_63, !N.shiftr_div_pow2 in H. exact H.
Qed.

Lemma digit_eq0 (u v : N) : digit u = digit v -> (u mod 64 = v mod 64)%N.
Proof.
  intros H. apply (f_equal digit_value) in H.
  rewrite !digit_value_digit, !land_63 in H. exact H.
Qed.

Lemma list_ind3 {A} (P : list A -> Prop) :
  P [] -> (forall a, P [a]) -> (forall a b, P [a; b]) ->
  (forall a b c r, P r -> P (a :: b :: c :: r)) ->
  forall l, P l.
Proof.
  intros H0 H1 H2 H3.
  assert (H : forall l, P l /\ (forall a, P (a :: l)) /\ (forall a b, P (a :: b :: l))).
  { induction l as [|x l (IH0 & IH1 & IH2)]; [auto|].
    split; [exact (IH1 x)|]. split; [intros a; exact (IH2 a x)|].
    intros a b. apply H3. exact IH0. }
  intros l. apply H.
Qed.

Lemma encode_inj (l1 : list N) : forall l2,
  Forall (fun b => (b < 256)%N) l1 -> Forall (fun b => (b < 256)%N) l2 ->
  encode l1 = encode l2 -> l1 = l2.
Proof.
  induction l1 as [|a|a b|a b c r IH] using list_ind3; intros l2 F1 F2 He;
    destruct l2 as [|a' [|b' [|c' r']]]; cbn [encode] in He; try discriminate;
    try reflexivity;
    repeat match goal with
           | H : Forall _ (_ :: _) |- _ => apply Forall_cons in H as [? H]
           end;
    injection He; clear He; intros; subst;
    try (exfalso; eapply digit_not_pad; (eassumption || (symmetry; eassumption)));
    try reflexivity.
  - (* one byte *)
    rewrite !word1 in *.
    repeat match goal with
           | H : digit (N.shiftr _ _) = digit (N.shiftr _ _) |- _ => apply digit_eq in H
           end.
    change (2 ^ 18)%N with 262144%N in *. change (2 ^ 12)%N with 4096%N in *.
    f_equal. zify. Z.to_euclidean_division_equations. lia.
  - (* two bytes *)
    rewrite !word2 in * by assumption.
    repeat match goal with
           | H : digit (N.shiftr _ _) = digit (N.shiftr _ _) |- _ => apply digit_eq in H
           end.
    change (2 ^ 18)%N with 262144%N in *. change (2 ^ 12)%N with 4096%N in *.
    change (2 ^ 6)%N with 64%N in *.
    assert (Hv : (a * 65536 + b * 256 = a' * 65536 + b' * 256)%N).
    { rewrite (six_bit_digits (a * 65536 + b * 256)) by lia.
      rewrite (six_bit_digits (a' * 65536 + b' * 256)) by lia.
      assert (Hm : ((a * 65536 + b * 256) mod 64 = 0 /\ (a' * 65536 + b' * 256) mod 64 = 0)%N).
      { split.
        - replace (a * 65536 + b * 256)%N with ((a * 1024 + b * 4) * 64)%N by lia.
          apply N.Div0.mod_mul.
        - replace (a' * 65536 + b' * 256)%N with ((a' * 1024 + b' * 4) * 64)%N by lia.
          apply N.Div0.mod_mul. }
      destruct Hm as [-> ->]. congruence. }
    assert (a = a' /\ b = b') as [-> ->] by lia. reflexivity.
  - (* three bytes and more *)
    rewrite !word3 in * by assumption.
    repeat match goal with
           | H : digit (N.shiftr _ _) = digit (N.shiftr _ _) |- _ => apply digit_eq in H
           | H : digit _ = digit _ |- _ => apply digit_eq0 in H
           end.
    change (2 ^ 18)%N with 262144%N in *. change (2 ^ 12)%N with 4096%N in *.
    change (2 ^ 6)%N with 64%N in *.
    assert (Hv : (a * 65536 + b * 256 + c = a' * 65536 + b' * 256 + c')%N).
    { rewrite (six_bit_digits (a * 65536 + b * 256 + c)) by lia.
      rewrite (six_bit_digits (a' * 65536 + b' * 256 + c')) by lia. congruence. }
    assert (a = a' /\ b = b' /\ c = c') as (-> & -> & ->) by lia.
    f_equal. f_equal. f_equal. apply IH; assumption.
Qed.

Lemma bytes_bound (s : string) : Forall (fun b => (b < 256)%N) (bytes s).
Proof.
  induction s as [|c s IH]; constructor; [|exact IH].
  unfold code. apply N_ascii_bounded.
Qed.

Lemma bytes_inj (s1 s2 : string) : bytes s1 = bytes s2 -> s1 = s2.
Proof.
  revert s2. induction s1 as [|c s1 IH]; intros [|c' s2]; cbn; try discriminate; auto.
  intros [= Hc Hs]. f_equal; [|apply IH; exact Hs].
  unfold code in Hc. rewrite <- (ascii_N_embedding c), <- (ascii_N_embedding c'), Hc.
  reflexivity.
Qed.

Lemma EncodeToString_inj (s1 s2 : string) :
  EncodeToString s1 = EncodeToString s2 -> s1 = s2.
Proof.
  unfold EncodeToString. intros H. apply bytes_inj.
  apply encode_inj; auto using bytes_bound.
Qed.

Section More.
Context `{C : Collaborators}.

Local Abbreviation Pred := (Predicate time_Time).

(** *** ParseTriple: when it panics, and what it parses *)

(** X2: [ParseTriple] panics exactly when both patterns match in the trimmed
    line and the first match of the object pattern starts before the first
    match of the subject pattern. *)
Theorem ParseTriple_panic_iff (line : string) (b : Builder) :
  ParseTriple line b = Panic
  <-> exists idxp idxo,
        FindIndex pSplit (TrimSpace line) = Some idxp
        /\ FindIndex oSplit (TrimSpace line) = Some idxo
        /\ idxo.1 < idxp.1.
Proof.
  unfold ParseTriple.
  destruct (FindIndex pSplit (TrimSpace line)) as [[i j]|] eqn:Hp;
    [|split; [discriminate|intros (? & ? & ? & _); discriminate]].
  destruct (FindIndex oSplit (TrimSpace line)) as [[i' j']|] eqn:Ho;
    [|split; [discriminate|intros (? & ? & _ & ? & _); discriminate]].
  destruct (GoFacts.FindIndex_leftmost _ _ _ _ re_wf_pSplit Hp) as [Mp _].
  destruct (GoFacts.FindIndex_leftmost _ _ _ _ re_wf_oSplit Ho) as [Mo _].
  pose proof (GoFacts.Matches_bounds _ _ _ _ Mp) as Bp.
  pose proof (GoFacts.Matches_bounds _ _ _ _ Mo) as Bo.
  pose proof (Matches_len _ _ _ _ Mp) as Lp.
  pose proof (Matches_len _ _ _ _ Mo) as Lo.
  cbn [fst snd].
  destruct (Nat.le_gt_cases i i') as [Hle | Hgt].
  - destruct (split_fields _ _ _ _ _ Mp Mo Hle)
      as (pre & ws & m & ws' & c' & post' & _ & _ & _ & _ & _ & _ & Hi & Hj & Hi' & Hj').
    unfold slice_from, slice.
    replace (0 <=? i + 1) with true by (symmetry; apply Nat.leb_le; lia).
    replace (i + 1 <=? len (TrimSpace line)) with true by (symmetry; apply Nat.leb_le; lia).
    replace (j - 1 <=? i' + 1) with true by (symmetry; apply Nat.leb_le; lia).
    replace (i' + 1 <=? len (TrimSpace line)) with true by (symmetry; apply Nat.leb_le; lia).
    replace (j' - 1 <=? len (TrimSpace line)) with true by (symmetry; apply Nat.leb_le; lia).
    rewrite Nat.leb_refl. cbn [andb].
    split.
    + unfold NewTriple. pose proof (ParseObject_no_panic) as Hnp.
      repeat case_match; try discriminate. intros _. exfalso. eapply Hnp; eassumption.
    + intros (idxp & idxo & [= <-] & [= <-] & Hlt). cbn in Hlt. lia.
  - split; [intros _; exists (i, j), (i', j'); auto|]. intros _.
    destruct (slice (TrimSpace line) 0 (i + 1)); [|reflexivity].
    unfold slice at 1.
    replace (j - 1 <=? i' + 1) with false; [reflexivity|].
    symmetry. apply Nat.leb_gt. lia.
Qed.

(** X3: when the first match of the object pattern does not start before that
    of the subject pattern, the trimmed line is a subject text that ends
    with [>], white space, a predicate text that starts with a quote and
    ends with a bracket, white space, and an object text that starts with
    a slash or a quote; these three texts, and nothing else of the line,
    go to the three parsers. *)
Theorem ParseTriple_fields (line : string) (b : Builder) (idxp idxo : nat * nat) :
  FindIndex pSplit (TrimSpace line) = Some idxp ->
  FindIndex oSplit (TrimSpace line) = Some idxo ->
  idxp.1 <= idxo.1 ->
  exists ss ws sp ws' so,
    TrimSpace line = ss +:+ ws +:+ sp +:+ ws' +:+ so
    /\ last ss = Some ">"%char
    /\ first sp = Some dquote /\ last sp = Some "]"%char
    /\ (exists c, first so = Some c /\ closes oSplit c = true)
    /\ ws <> EmptyString /\ all_space ws = true
    /\ ws' <> EmptyString /\ all_space ws' = true
    /\ ParseTriple line b = parse_fields ss sp so b.
Proof.
  intros Hp Ho Hle. destruct idxp as [i j], idxo as [i' j']. cbn [fst] in Hle.
  destruct (GoFacts.FindIndex_leftmost _ _ _ _ re_wf_pSplit Hp) as [Mp _].
  destruct (GoFacts.FindIndex_leftmost _ _ _ _ re_wf_oSplit Ho) as [Mo _].
  destruct (split_fields _ _ _ _ _ Mp Mo Hle)
    as (pre & ws & m & ws' & c' & post' & Hraw & Hne & Hws & Hne' & Hws' & Hc'
        & Hi & Hj & Hi' & Hj').
  set (ss := pre +:+ ">") in *. set (sp := String dquote m +:+ "]") in *.
  set (so := String c' post') in *.
  assert (Lss : len ss = len pre + 1) by apply GoFacts.len_app.
  assert (Lsp : len sp = len m + 2).
  { unfold sp. rewrite GoFacts.app_cons, GoFacts.len_cons, GoFacts.len_app. cbn. lia. }
  exists ss, ws, sp, ws', so.
  split; [exact Hraw|]. split.
  { unfold ss. clear. induction pre as [|x pre IH]; [reflexivity|].
    rewrite GoFacts.app_cons. cbn [last]. rewrite IH.
    destruct (pre +:+ ">") eqn:E; [|reflexivity].
    destruct pre; discriminate. }
  split; [reflexivity|]. split.
  { unfold sp. rewrite GoFacts.app_cons. clear. cbn [last].
    assert (H : last (m +:+ "]") = Some "]"%char).
    { induction m as [|x m IH]; [reflexivity|].
      rewrite GoFacts.app_cons. cbn [last]. rewrite IH.
      destruct (m +:+ "]") eqn:E; [|reflexivity]. destruct m; discriminate. }
    rewrite H. destruct (m +:+ "]") eqn:E; [|reflexivity]. destruct m; discriminate. }
  split; [exists c'; split; [reflexivity|exact Hc']|].
  split; [exact Hne|]. split; [exact Hws|]. split; [exact Hne'|]. split; [exact Hws'|].
  unfold ParseTriple, parse_fields. rewrite Hp, Ho. cbn [fst snd].
  assert (S1 : slice (TrimSpace line) 0 (i + 1) = Some ss).
  { rewrite Hraw. replace (i + 1) with (len ss) by lia. apply GoFacts.slice_app_l. }
  assert (S2 : slice (TrimSpace line) (j - 1) (i' + 1) = Some sp).
  { rewrite Hraw. rewrite <- (GoFacts.app_assoc ss ws).
    replace (j - 1) with (len (ss +:+ ws)) by (rewrite GoFacts.len_app; lia).
    replace (i' + 1) with (len (ss +:+ ws) + len sp) by (rewrite GoFacts.len_app; lia).
    apply GoFacts.slice_app_mid. }
  assert (S3 : slice_from (TrimSpace line) (j' - 1) = Some so).
  { rewrite Hraw. rewrite <- (GoFacts.app_assoc ss ws), <- (GoFacts.app_assoc _ sp),
      <- (GoFacts.app_assoc _ ws').
    replace (j' - 1) with (len (((ss +:+ ws) +:+ sp) +:+ ws'))
      by (rewrite !GoFacts.len_app; lia).
    apply GoFacts.slice_from_app. }
  rewrite S1, S2, S3. reflexivity.
Qed.

(** X4: a triple [ParseTriple] returns has its subject, predicate and object
    present, and its object holds exactly one variant. *)
Theorem ParseTriple_well_formed (line : string) (b : Builder) (t : Triple) :
  ParseTriple line b = Ok t ->
  exists s p o, t = mkTriple (Some s) (Some p) (Some o) /\ exactly_one_of o.
Proof.
  unfold ParseTriple, NewTriple.
  repeat case_match; try discriminate. intros [= <-].
  eexists _, _, _. split; [reflexivity|].
  match goal with H : ParseObject _ _ = Ok _ |- _ => revert H end.
  unfold ParseObject. repeat case_match; intros [= <-];
    first [exists VNode; reflexivity | exists VLiteral; reflexivity
          | exists VPredicate; reflexivity].
Qed.

(** *** GUID: equal exactly when the printed forms are equal *)

Lemma Object_GUID_tag (o : Object) :
  Object_GUID o = EncodeToString (Object_tag o +:+ ":" +:+ Object_String o).
Proof. reflexivity. Qed.

Lemma Object_tag_held (o : Object) (v : Variant) :
  held o = [v] -> Object_tag o = variant_tag v.
Proof.
  unfold held, Object_tag.
  destruct (obj_n o), (obj_l o), (obj_p o); cbn; intros [= <-]; reflexivity.
Qed.

Lemma tagged_inj (v1 v2 : Variant) (s1 s2 : string) :
  variant_tag v1 +:+ ":" +:+ s1 = variant_tag v2 +:+ ":" +:+ s2 ->
  v1 = v2 /\ s1 = s2.
Proof.
  destruct v1, v2; cbv [variant_tag String.append]; intros H;
    try discriminate; injection H as ->; auto.
Qed.

(** X5: two triples have the same GUID exactly when they print the same. *)
Theorem Triple_GUID_inj (t1 t2 : Triple) :
  Triple_GUID t1 = Triple_GUID t2 <-> Triple_String t1 = Triple_String t2.
Proof.
  unfold Triple_GUID. split; [apply EncodeToString_inj|intros ->; reflexivity].
Qed.

(** X6: two objects that each hold exactly one variant have the same GUID
    exactly when they hold the same variant and print the same. *)
Theorem Object_GUID_inj (o1 o2 : Object) (v1 v2 : Variant) :
  held o1 = [v1] -> held o2 = [v2] ->
  (Object_GUID o1 = Object_GUID o2 <-> v1 = v2 /\ Object_String o1 = Object_String o2).
Proof.
  intros H1 H2. rewrite !Object_GUID_tag.
  rewrite (Object_tag_held _ _ H1), (Object_tag_held _ _ H2). split.
  - intros H. apply EncodeToString_inj in H. apply tagged_inj. exact H.
  - intros [-> ->]. reflexivity.
Qed.

(** *** Reify: when it panics, when it fails *)

Lemma rp_nil (id : string) : rp id None = Panic.
Proof. reflexivity. Qed.

(** X7: [Reify] panics exactly when the predicate of the triple is nil, or
    the object is nil and the subject and predicate role predicates could
    be built.  A nil subject does not make it panic. *)
Theorem Reify_panic_iff (t : Triple) (w : World) :
  (Reify t w).1 = Panic
  <-> t_p t = None
      \/ (t_o t = None
          /\ exists ps pp, rp "_subject" (t_p t) = Ok ps
                           /\ rp "_predicate" (t_p t) = Ok pp).
Proof.
  unfold Reify. cbn [blanks stdout].
  destruct (NewBlankNode (blanks w)) as [b supply]. cbn [fst].
  destruct (t_p t) as [p|]; [|split; [auto|reflexivity]].
  pose proof (rp_no_panic "_subject" p) as N1.
  pose proof (rp_no_panic "_predicate" p) as N2.
  pose proof (rp_no_panic "_object" p) as N3.
  destruct (rp "_subject" (Some p)) as [ps| |] eqn:E1; [| |congruence];
    [|split; [discriminate|intros [|(_ & ? & ? & ? & _)]; discriminate]].
  destruct (rp "_predicate" (Some p)) as [pp| |] eqn:E2; [| |congruence];
    [|split; [discriminate|intros [|(_ & ? & ? & _ & ?)]; discriminate]].
  cbn [bind].
  destruct (t_o t) as [to_|]; [|split; [intros _; right; eauto|reflexivity]].
  split; [|intros [|[? _]]; discriminate].
  destruct (rp "_object" (Some p)) as [po| |] eqn:E3; [| |congruence];
    destruct (obj_l to_), (obj_n to_), (obj_p to_); cbn; rewrite ?E3; cbn; discriminate.
Qed.

(** X8: [Reify] returns an error exactly when one of the role predicates it
    needs cannot be built, and the error is that of the first one: the
    subject's, else the predicate's, else, when the object is present and
    holds a variant, the object's. *)
Theorem Reify_error_iff (t : Triple) (w : World) (e : error) :
  (Reify t w).1 = Err e
  <-> rp "_subject" (t_p t) = Err e
      \/ (exists ps, rp "_subject" (t_p t) = Ok ps
                     /\ rp "_predicate" (t_p t) = Err e)
      \/ (exists ps pp o, rp "_subject" (t_p t) = Ok ps
                          /\ rp "_predicate" (t_p t) = Ok pp
                          /\ t_o t = Some o /\ held o <> []
                          /\ rp "_object" (t_p t) = Err e).
Proof.
  unfold Reify. cbn [blanks stdout].
  destruct (NewBlankNode (blanks w)) as [b supply]. cbn [fst].
  destruct (rp "_subject" (t_p t)) as [ps| |] eqn:E1; cbn [bind].
  2: { split; [intros [= <-]; auto|].
       intros [[= <-]|[(? & ? & _)|(? & ? & ? & ? & _)]]; [reflexivity|discriminate..]. }
  2: { split; [discriminate|].
       intros [|[(? & ? & _)|(? & ? & ? & ? & _)]]; discriminate. }
  destruct (rp "_predicate" (t_p t)) as [pp| |] eqn:E2; cbn [bind].
  2: { split; [intros [= <-]; eauto|].
       intros [|[(? & _ & [= <-])|(? & ? & ? & _ & ? & _)]];
         [discriminate|reflexivity|discriminate]. }
  2: { split; [discriminate|].
       intros [|[(? & _ & ?)|(? & ? & ? & _ & ? & _)]]; discriminate. }
  destruct (t_o t) as [to_|].
  2: { split; [discriminate|].
       intros [|[(? & _ & ?)|(? & ? & ? & _ & _ & ? & _)]]; discriminate. }
  destruct (rp "_object" (t_p t)) as [po| |] eqn:E3.
  - split.
    + destruct (obj_l to_), (obj_n to_), (obj_p to_); cbn; discriminate.
    + intros [|[(? & _ & ?)|(? & ? & ? & _ & _ & _ & _ & ?)]]; discriminate.
  - split.
    + intros H. right. right. exists ps, pp, to_.
      split; [reflexivity|]. split; [reflexivity|]. split; [reflexivity|].
      unfold held.
      destruct (obj_l to_), (obj_n to_), (obj_p to_); cbn in H |- *;
        try discriminate; injection H as <-; (split; [discriminate|reflexivity]).
    + intros [|[(? & _ & ?)|(? & ? & o' & _ & _ & Ho' & Hh & He)]];
        [discriminate..|].
      injection Ho' as Ho'. subst o'. injection He as He. subst e.
      unfold held in Hh.
      destruct (obj_l to_), (obj_n to_), (obj_p to_); cbn in Hh |- *;
        try reflexivity; contradiction.
  - split.
    + destruct (obj_l to_), (obj_n to_), (obj_p to_); cbn; discriminate.
    + intros [|[(? & _ & ?)|(? & ? & ? & _ & _ & _ & _ & ?)]]; discriminate.
Qed.

(** X9: for an object that holds no variant, as [NewNodeObject(nil)] makes
    one, [Reify] does not ask for the object's role predicate, and the
    fourth triple it returns is nil. *)
Theorem Reify_hollow_object (t : Triple) (w : World) (o : Object) (ps pp : Pred) :
  t_o t = Some o -> held o = [] ->
  rp "_subject" (t_p t) = Ok ps -> rp "_predicate" (t_p t) = Ok pp ->
  (Reify t w).1
  = Ok ([Some t;
         Some (mkTriple (Some (NewBlankNode (blanks w)).1) (Some ps)
                        (Some (NewNodeObject (t_s t))));
         Some (mkTriple (Some (NewBlankNode (blanks w)).1) (Some pp)
                        (Some (NewPredicateObject (t_p t))));
         None],
        (NewBlankNode (blanks w)).1).
Proof.
  intros Ho Hh E1 E2. unfold Reify. cbn [blanks stdout].
  destruct (NewBlankNode (blanks w)) as [b supply]. cbn [fst].
  rewrite E1, E2, Ho. cbn [bind]. unfold held in Hh.
  destruct (obj_l o), (obj_n o), (obj_p o); try discriminate. reflexivity.
Qed.

End More.
End TripleMore.

(* ===================================================================== *)
(** ** More on package [semantic]                                          *)
(* ===================================================================== *)

Module SemanticMore.
Import Go Triple Semantic SemanticFacts.

Section More.
Context `{C : Collaborators} `{R : Runtime}.

(** *** Bindings *)

Lemma Bindings_clause_fold (bs : gmap string Z) (cls : GraphClause) :
  Bindings_clause bs cls = fold_left addToBindings (binding_names cls) bs.
Proof. reflexivity. Qed.

Lemma Bindings_loop_fold (st : State) (l : list (option loc)) :
  forall bs cs, mapM (deref st) l = Some cs ->
  Bindings_loop st bs l
  = Some (fold_left addToBindings (concat (binding_names <$> cs)) bs).
Proof.
  induction l as [|x l IH]; intros bs cs Hcs.
  - injection Hcs as <-. reflexivity.
  - apply mapM_Some in Hcs. inversion Hcs as [|? c ? cs' Hx Hl]; subst.
    cbn [Bindings_loop]. rewrite Hx. apply mapM_Some in Hl.
    rewrite (IH _ _ Hl), Bindings_clause_fold. cbn [fmap list_fmap concat].
    rewrite fold_left_app. reflexivity.
Qed.

Lemma Bindings_loop_None (st : State) (l : list (option loc)) :
  forall bs, Bindings_loop st bs l = None <-> exists x, x ∈ l /\ deref st x = None.
Proof.
  induction l as [|x l IH]; intros bs; cbn [Bindings_loop].
  - split; [discriminate|]. intros (x & Hx & _). inversion Hx.
  - destruct (deref st x) as [c|] eqn:Hd.
    + rewrite IH. split.
      * intros (y & Hy & Hn). exists y. split; [right; exact Hy|exact Hn].
      * intros (y & Hy & Hn). inversion Hy; subst; [congruence|eauto].
    + split; [|reflexivity]. intros _. exists x. split; [left|exact Hd].
Qed.

Lemma addToBindings_comm (bs : gmap string Z) (a b : string) :
  addToBindings (addToBindings bs a) b = addToBindings (addToBindings bs b) a.
Proof.
  unfold addToBindings.
  destruct (String.eqb a EmptyString) eqn:Ea, (String.eqb b EmptyString) eqn:Eb;
    cbn [negb]; try reflexivity.
  destruct (decide (a = b)) as [->|Hne]; [reflexivity|].
  rewrite !lookup_insert_ne by congruence.
  apply insert_insert_ne. congruence.
Qed.

Lemma fold_addToBindings_perm (l1 l2 : list string) :
  l1 ≡ₚ l2 -> forall bs, fold_left addToBindings l1 bs = fold_left addToBindings l2 bs.
Proof.
  induction 1 as [|x l1 l2 _ IH|x y l|l1 l2 l3 _ IH1 _ IH2]; intros bs; cbn.
  - reflexivity.
  - apply IH.
  - rewrite addToBindings_comm. reflexivity.
  - rewrite IH1. apply IH2.
Qed.

Lemma wrap_int_small (z : Z) : (- 2 ^ 63 <= z < 2 ^ 63)%Z -> wrap_int z = z.
Proof.
  intros H. unfold wrap_int.
  rewrite Z.mod_small by (change (2 ^ 64)%Z with (2 * 2 ^ 63)%Z; lia). lia.
Qed.

(** The map after the names of [l] are added to the empty map. *)
Lemma fold_addToBindings_count (l : list string) :
  (Z.of_nat (length l) < 2 ^ 63)%Z ->
  forall name,
    fold_left addToBindings l ∅ !! name
    = if decide (name = EmptyString) then None
      else match count_occ string_dec l name with
           | 0 => None
           | S n => Some (Z.of_nat (S n))
           end.
Proof.
  induction l as [|x l IH] using rev_ind; intros Hlen name.
  - cbn. rewrite lookup_empty. destruct (decide _); reflexivity.
  - rewrite length_app in Hlen. cbn [length] in Hlen.
    rewrite fold_left_app. cbn [fold_left].
    rewrite count_occ_app. cbn [count_occ].
    specialize (IH ltac:(lia)).
    pose proof (count_occ_bound string_dec name l) as Hb.
    unfold addToBindings.
    destruct (String.eqb x EmptyString) eqn:Ex; cbn [negb].
    + apply String.eqb_eq in Ex. subst x. rewrite IH.
      destruct (decide (name = EmptyString)) as [->|Hn]; [reflexivity|].
      destruct (string_dec EmptyString name) as [E|_]; [congruence|].
      rewrite Nat.add_0_r. reflexivity.
    + apply String.eqb_neq in Ex.
      destruct (string_dec x name) as [->|Hne].
      * rewrite lookup_insert_eq. rewrite IH.
        destruct (decide (name = EmptyString)) as [E|_]; [congruence|].
        destruct (count_occ string_dec l name) as [|n] eqn:Hc.
        -- cbn. rewrite wrap_int_small by lia. reflexivity.
        -- replace (S n + 1) with (S (S n)) by lia. cbn [default].
           unfold id. rewrite wrap_int_small by lia. f_equal. lia.
      * rewrite lookup_insert_ne by exact Hne. rewrite IH, Nat.add_0_r. reflexivity.
Qed.

(** X10: [Bindings] returns the map from each name written in one of the
    twenty binding and alias fields of a committed clause to the number of
    times it is written there; the empty name is not a key, and neither is
    a name that nobody wrote.  This holds when the pattern holds no nil
    pointer and is short enough for the counts not to overflow. *)
Theorem Bindings_count (st : State) (cs : list GraphClause) :
  clauses_of st (GraphPatternClauses st) = Some cs ->
  (20 * Z.of_nat (length cs) < 2 ^ 63)%Z ->
  exists bs,
    Bindings st = Some bs
    /\ bs !! EmptyString = None
    /\ forall name, name <> EmptyString ->
         bs !! name = match occurrences name cs with
                      | 0 => None
                      | S n => Some (Z.of_nat (S n))
                      end.
Proof.
  intros Hcs Hlen. unfold Bindings.
  rewrite (Bindings_loop_fold st _ ∅ cs Hcs).
  eexists. split; [reflexivity|].
  assert (Hl : (Z.of_nat (length (concat (binding_names <$> cs))) < 2 ^ 63)%Z).
  { assert (length (concat (binding_names <$> cs)) = 20 * length cs) as ->; [|lia].
    clear. induction cs as [|c cs IH]; [reflexivity|].
    cbn [fmap list_fmap concat]. rewrite length_app, IH. cbn [binding_names length]. lia. }
  split.
  - rewrite (fold_addToBindings_count _ Hl). reflexivity.
  - intros name Hn. rewrite (fold_addToBindings_count _ Hl).
    destruct (decide (name = EmptyString)); [contradiction|reflexivity].
Qed.

(** X11: sorting the pattern does not change the bindings: on a statement
    whose committed pointers all designate clauses, [Bindings] after
    [SortedGraphPatternClauses] returns what it returned before. *)
Theorem Bindings_sorted `{!RuntimeLaws} (st : State) :
  wf st -> no_nil_clause st ->
  exists r st' bs,
    SortedGraphPatternClauses st = Some (r, st')
    /\ Bindings st = Some bs
    /\ Bindings st' = Some bs.
Proof.
  intros Hwf Hnn.
  destruct (SortedGraphPatternClauses_spec st Hwf Hnn)
    as (st' & cs0 & cs & Hs & Hst & _ & _ & H0 & H1 & Hperm & _).
  exists (pattern (stmt st)), st',
    (fold_left addToBindings (concat (binding_names <$> cs0)) ∅).
  split; [exact Hs|]. unfold Bindings. rewrite Hst.
  rewrite (Bindings_loop_fold st _ ∅ cs0 H0), (Bindings_loop_fold st' _ ∅ cs H1).
  split; [reflexivity|]. f_equal. apply fold_addToBindings_perm.
  rewrite Hperm. reflexivity.
Qed.

(** X12: [Bindings] panics exactly when the pattern holds a nil pointer, and
    it does after a commit made while the statement had no working
    clause, as on a new statement before the first
    [ResetWorkingGraphClause]. *)
Theorem Bindings_panics (st : State) :
  wf st ->
  (Bindings st = None <-> None ∈ elems (arrays st) (GraphPatternClauses st))
  /\ (WorkingClause st = None -> Bindings (AddWorkingGrpahClause st) = None).
Proof.
  intros Hwf.
  assert (Hiff : forall st0, wf st0 ->
            (Bindings st0 = None <-> None ∈ elems (arrays st0) (GraphPatternClauses st0))).
  { intros st0 (_ & Hel & _). unfold Bindings, GraphPatternClauses.
    rewrite Bindings_loop_None. split.
    - intros (x & Hx & Hd). destruct x as [l|]; [|exact Hx]. exfalso.
      rewrite Forall_forall in Hel. specialize (Hel _ Hx l eq_refl).
      apply elem_of_dom in Hel as [c Hc]. cbn in Hd. congruence.
    - intros Hin. exists None. split; [exact Hin|reflexivity]. }
  split; [apply Hiff; exact Hwf|].
  intros Hw. apply Hiff; [apply wf_AddWorkingGrpahClause; exact Hwf|].
  destruct Hwf as (Hok & _ & _).
  unfold AddWorkingGrpahClause, GraphPatternClauses, WorkingClause in *.
  pose proof (append_elems (arrays st) (pattern (stmt st)) (workingClause (stmt st)) Hok)
    as Happ.
  destruct (append (arrays st) (pattern (stmt st)) (workingClause (stmt st)))
    as [arrs ptrn]. destruct Happ as [Hel' _]. cbn.
  rewrite Hel', Hw. apply elem_of_app. right. left.
Qed.

(** X13: [Bindings] reads the twenty binding and alias names and nothing else
    of a clause: a write through a clause pointer that keeps them, such
    as one to [S], [P], [O], [PID] or a time bound, leaves what
    [Bindings] returns unchanged. *)
Theorem Bindings_update_clause (st : State) (l : loc) (f : GraphClause -> GraphClause) :
  (forall c, binding_names (f c) = binding_names c) ->
  Bindings (update_clause l f st) = Bindings st.
Proof.
  intros Hf. unfold Bindings, update_clause. cbn [stmt arrays].
  generalize (elems (arrays st) (pattern (stmt st))) (∅ : gmap string Z).
  intros els. induction els as [|x els IH]; intros bs; [reflexivity|].
  cbn [Bindings_loop]. destruct x as [k|]; [|reflexivity]. cbn [deref clauses].
  destruct (decide (l = k)) as [->|Hne].
  - rewrite lookup_alter_eq. destruct (clauses st !! k) as [c|]; [|reflexivity].
    cbn. rewrite !Bindings_clause_fold, Hf. apply IH.
  - rewrite lookup_alter_ne by exact Hne.
    destruct (clauses st !! k) as [c|]; [|reflexivity]. apply IH.
Qed.

(** *** Commit *)

(** A commit and a reset allocate: the clauses that exist stay as they
    are. *)
Lemma reset_keeps (st : State) (l : loc) (c : GraphClause) :
  clauses st !! l = Some c -> clauses (ResetWorkingGraphClause st) !! l = Some c.
Proof.
  intros Hl. unfold ResetWorkingGraphClause. cbn.
  rewrite lookup_insert_ne; [exact Hl|].
  intros E. apply (is_fresh (dom (clauses st))). rewrite E. apply elem_of_dom. eauto.
Qed.

Lemma commit_keeps (st : State) (l : loc) (c : GraphClause) :
  clauses st !! l = Some c -> clauses (AddWorkingGrpahClause st) !! l = Some c.
Proof.
  intros Hl. unfold AddWorkingGrpahClause. destruct (append _ _ _) as [arrs ptrn].
  apply reset_keeps. exact Hl.
Qed.

Lemma commit_elems (st : State) :
  wf st ->
  elems (arrays (AddWorkingGrpahClause st)) (GraphPatternClauses (AddWorkingGrpahClause st))
  = elems (arrays st) (GraphPatternClauses st) ++ [WorkingClause st].
Proof.
  intros (Hok & _ & _). unfold AddWorkingGrpahClause, GraphPatternClauses, WorkingClause.
  pose proof (append_elems (arrays st) (pattern (stmt st)) (workingClause (stmt st)) Hok)
    as Happ.
  destruct (append (arrays st) (pattern (stmt st)) (workingClause (stmt st)))
    as [arrs ptrn]. destruct Happ as [Hel' _]. exact Hel'.
Qed.

Lemma commit_working (st : State) :
  deref (AddWorkingGrpahClause st) (WorkingClause (AddWorkingGrpahClause st))
  = Some GraphClause_zero.
Proof.
  unfold AddWorkingGrpahClause. destruct (append _ _ _) as [arrs ptrn].
  unfold ResetWorkingGraphClause, WorkingClause. cbn. apply lookup_insert_eq.
Qed.

(** Reading clauses through pointers, in a store that kept them. *)
Lemma mapM_deref_keeps (st st' : State) (l : list (option loc)) (cs : list GraphClause) :
  (forall k c, clauses st !! k = Some c -> clauses st' !! k = Some c) ->
  mapM (deref st) l = Some cs -> mapM (deref st') l = Some cs.
Proof.
  intros Hk Hcs. apply mapM_Some. apply mapM_Some in Hcs.
  eapply Forall2_impl; [exact Hcs|].
  intros x y Hx. destruct x as [k|]; [|discriminate]. apply Hk. exact Hx.
Qed.

(** X14: a commit appends the working clause as it was written, and the new
    working clause is the zero clause: nothing written before the commit
    shows in the next clause. *)
Theorem AddWorkingGrpahClause_appends (st : State) (w : loc) (c : GraphClause)
    (cs : list GraphClause) :
  wf st -> WorkingClause st = Some w -> clauses st !! w = Some c ->
  clauses_of st (GraphPatternClauses st) = Some cs ->
  clauses_of (AddWorkingGrpahClause st) (GraphPatternClauses (AddWorkingGrpahClause st))
  = Some (cs ++ [c])
  /\ deref (AddWorkingGrpahClause st) (WorkingClause (AddWorkingGrpahClause st))
     = Some GraphClause_zero.
Proof.
  intros Hwf Hw Hc Hcs. split; [|apply commit_working].
  unfold clauses_of in *. rewrite (commit_elems st Hwf), Hw.
  apply mapM_Some. apply Forall2_app.
  - apply mapM_Some. apply (mapM_deref_keeps st); [apply commit_keeps|exact Hcs].
  - constructor; [|constructor]. cbn [deref]. apply commit_keeps. exact Hc.
Qed.

(** X15: [ResetWorkingGraphClause] drops what was written and not committed:
    the next commit appends the zero clause, whatever the working clause
    held before the reset; the clause that was dropped is still what a
    handle obtained before the reset designates. *)
Theorem ResetWorkingGraphClause_discards (st : State) (cs : list GraphClause) :
  wf st -> clauses_of st (GraphPatternClauses st) = Some cs ->
  clauses_of (AddWorkingGrpahClause (ResetWorkingGraphClause st))
             (GraphPatternClauses (AddWorkingGrpahClause (ResetWorkingGraphClause st)))
  = Some (cs ++ [GraphClause_zero])
  /\ forall w c, WorkingClause st = Some w -> clauses st !! w = Some c ->
       WorkingClause (ResetWorkingGraphClause st) <> Some w
       /\ deref (AddWorkingGrpahClause (ResetWorkingGraphClause st)) (Some w) = Some c.
Proof.
  intros Hwf Hcs.
  assert (Hfresh : fresh (dom (clauses st)) ∉ dom (clauses st)) by apply is_fresh.
  split.
  - unfold clauses_of in *.
    rewrite (commit_elems _ (wf_ResetWorkingGraphClause st Hwf)).
    change (elems (arrays (ResetWorkingGraphClause st))
                  (GraphPatternClauses (ResetWorkingGraphClause st)))
      with (elems (arrays st) (GraphPatternClauses st)).
    apply mapM_Some. apply Forall2_app.
    + apply mapM_Some. apply (mapM_deref_keeps st); [|exact Hcs].
      intros k c Hk. apply commit_keeps, reset_keeps. exact Hk.
    + constructor; [|constructor].
      change (WorkingClause (ResetWorkingGraphClause st))
        with (Some (fresh (dom (clauses st)))).
      cbn [deref]. apply commit_keeps.
      unfold ResetWorkingGraphClause. cbn. apply lookup_insert_eq.
  - intros w c Hw Hc. split.
    + unfold ResetWorkingGraphClause, WorkingClause. cbn. intros [= E].
      apply Hfresh. rewrite E. apply elem_of_dom. eauto.
    + cbn [deref]. apply commit_keeps, reset_keeps. exact Hc.
Qed.

(** X16: a slice of clause pointers obtained earlier keeps its elements across
    a commit: [append] writes past its length or into a new array.  This
    holds of the slice [GraphPatternClauses] returned before the commit,
    and of any slice it returned earlier. *)
Theorem AddWorkingGrpahClause_keeps_slices (st : State) (s : slice) :
  wf st -> slice_ok (arrays st) s ->
  (base s = base (pattern (stmt st)) -> slen s <= slen (pattern (stmt st))) ->
  elems (arrays (AddWorkingGrpahClause st)) s = elems (arrays st) s.
Proof.
  intros (Hok & _ & _) Hs Hle.
  unfold AddWorkingGrpahClause, append.
  assert (Hnew : forall arr, elems (<[fresh (dom (arrays st)) := arr]> (arrays st)) s
                             = elems (arrays st) s).
  { intros arr. unfold elems. destruct (base s) as [a|] eqn:Hb; [|reflexivity].
    unfold slice_ok in Hs. rewrite Hb in Hs. destruct Hs as (arr0 & Ha & _).
    rewrite lookup_insert_ne; [reflexivity|].
    intros E. apply (is_fresh (dom (arrays st))). rewrite E.
    apply elem_of_dom. eauto. }
  destruct (base (pattern (stmt st))) as [a|] eqn:Hp; [|cbn; apply Hnew].
  destruct (slen (pattern (stmt st)) <? scap (pattern (stmt st))) eqn:Hcap;
    [|cbn; apply Hnew].
  cbn. unfold elems. destruct (base s) as [a'|] eqn:Hb; [|reflexivity].
  destruct (decide (a = a')) as [<-|Hne].
  - rewrite lookup_alter_eq. destruct (arrays st !! a) as [arr|]; [|reflexivity].
    cbn. apply take_insert_ge. apply Hle. reflexivity.
  - rewrite lookup_alter_ne by exact Hne. reflexivity.
Qed.

End More.
End SemanticMore.

(* ===================================================================== *)
(** ** The model at concrete inputs                                        *)
(* ===================================================================== *)

Module Concrete.
Import Go Triple Semantic Ref TripleFacts SemanticFacts.

(** *** Reification *)

(** C1: [Reify] on the triple [/u<john> "met"@[2015-07-19T13:12:04Z]
    /u<mary>], whose predicate is temporal.  The three role predicates the
    code builds are one and the same predicate, with the ID [met] and the
    anchor of the triple's predicate: none carries its role suffix.  For
    the immutable predicate [knows] the role predicates are [_subject],
    [_predicate] and [_object]. *)
Theorem Reify_temporal_roles :
  rp "_subject" (Some met) = Ok met
  /\ rp "_predicate" (Some met) = Ok met
  /\ rp "_object" (Some met) = Ok met
  /\ (Reify t_met w0).1
     = Ok ([Some t_met;
            Some (mkTriple (Some blank1) (Some met) (Some (NewNodeObject (Some john))));
            Some (mkTriple (Some blank1) (Some met) (Some (NewPredicateObject (Some met))));
            Some (mkTriple (Some blank1) (Some met) (Some obj_mary))],
           blank1)
  /\ rp "_subject" (Some knows) = Ok (mkPredicate "_subject" None)
  /\ rp "_predicate" (Some knows) = Ok (mkPredicate "_predicate" None)
  /\ rp "_object" (Some knows) = Ok (mkPredicate "_object" None).
Proof. repeat split. Qed.

Lemma Reify_shape_witness :
  Reify t_knows w0
  = (Ok ([Some t_knows;
          Some (mkTriple (Some blank1) (Some (mkPredicate "_subject" None))
                         (Some (NewNodeObject (Some john))));
          Some (mkTriple (Some blank1) (Some (mkPredicate "_predicate" None))
                         (Some (NewPredicateObject (Some knows))));
          Some (mkTriple (Some blank1) (Some (mkPredicate "_object" None))
                         (Some lit_v))],
         blank1),
     {| stdout := [Triple_String t_knows]; blanks := 1 |})
  /\ exactly_one_of lit_v
  /\ blank1 = (NewBlankNode (blanks w0)).1
  /\ exists ps pp po : Predicate string,
       rp "_subject" (Some knows) = Ok ps
       /\ rp "_predicate" (Some knows) = Ok pp
       /\ rp "_object" (Some knows) = Ok po.
Proof.
  assert (He : exactly_one_of lit_v)
    by (exists VLiteral; reflexivity).
  split; [reflexivity|]. split; [exact He|].
  destruct (Reify_shape (C := collaborators) t_knows w0 _ john knows lit_v _ _
              eq_refl eq_refl eq_refl He eq_refl) as (Hb & _ & ps & pp & po & H1 & H2 & H3 & _).
  split; [exact Hb|]. exists ps, pp, po. auto.
Defined.

(** *** Objects *)

(** C6, as stated, fails on the object [NewNodeObject(nil)]: none of the
    three accessors succeeds. *)
Lemma nil_object_counterexample :
  successes (NewNodeObject None) = 0
  /\ Object_Node (NewNodeObject None) = Err (ErrNotBoxed VNode INVALID_OBJECT)
  /\ Object_Predicate (NewNodeObject None) = Err (ErrNotBoxed VPredicate INVALID_OBJECT)
  /\ Object_Literal (NewNodeObject None) = Err (ErrNotBoxed VLiteral INVALID_OBJECT).
Proof. repeat split. Qed.

Lemma ParseObject_order_witness :
  ParseObject "/u<mary>" rbuilder = Ok obj_mary
  /\ ParseObject (rliteral_String "v") rbuilder = Ok lit_v
  /\ ParseObject (rpredicate_String knows) rbuilder = Ok (NewPredicateObject (Some knows))
  /\ ParseObject "?" rbuilder = Err (ErrExternal "predicate.Parse: malformed predicate ?").
Proof.
  split; [|split; [|split]].
  - exact (proj1 (ParseObject_order (C := collaborators) "/u<mary>" rbuilder) mary eq_refl).
  - exact (proj1 (proj2 (ParseObject_order (C := collaborators) (rliteral_String "v")
                           rbuilder))
             _ "v"%string eq_refl eq_refl).
  - exact (proj1 (proj2 (proj2 (ParseObject_order (C := collaborators)
                                  (rpredicate_String knows) rbuilder)))
             _ _ knows eq_refl eq_refl eq_refl).
  - exact (proj1 (proj2 (proj2 (proj2 (ParseObject_order (C := collaborators) "?"
                                         rbuilder))))
             _ _ _ eq_refl eq_refl eq_refl).
Defined.

Lemma GUID_encoding_witness :
  Object_GUID (NewNodeObject (Some john)) = EncodeToString "node:/u<john>"
  /\ EncodeToString "node:/u<john>" = "bm9kZTovdTxqb2huPg=="%string
  /\ Object_GUID (NewNodeObject (Some john)) = Object_GUID (mkObject (Some john) None None).
Proof.
  split; [|split; [reflexivity|]].
  - exact (proj1 (GUID_encoding (C := collaborators)) (NewNodeObject (Some john)) VNode
             eq_refl).
  - exact (proj2 (proj2 (GUID_encoding (C := collaborators))) (NewNodeObject (Some john))
             (mkObject (Some john) None None) VNode eq_refl eq_refl eq_refl).
Defined.

(** The vectors of RFC 4648 for the base64 encoding. *)
Example EncodeToString_vectors :
  EncodeToString "" = ""%string
  /\ EncodeToString "f" = "Zg=="%string
  /\ EncodeToString "fo" = "Zm8="%string
  /\ EncodeToString "foo" = "Zm9v"%string
  /\ EncodeToString "foob" = "Zm9vYg=="%string
  /\ EncodeToString "fooba" = "Zm9vYmE="%string
  /\ EncodeToString "foobar" = "Zm9vYmFy"%string.
Proof. repeat split. Qed.

(** *** ParseTriple *)

(** [TrimSpace] on ASCII spaces, on U+00A0 and U+3000 at either end, and
    on a continuation byte that is no part of a space. *)
Example TrimSpace_samples :
  TrimSpace (String tab "  a b  ") = "a b"%string
  /\ bytes (TrimSpace (of_bytes [194; 160; 227; 128; 128; 97; 32; 226; 128; 168]%N)) = [97%N]
  /\ bytes (TrimSpace (of_bytes [97; 160; 32]%N)) = [97; 160]%N.
Proof. repeat split; vm_compute; reflexivity. Qed.

(** The matches of the two patterns in a line, and none where the space
    is missing. *)
Example FindIndex_samples :
  FindIndex pSplit (Triple_String t_met) = Some (7, 10)
  /\ FindIndex oSplit (Triple_String t_met) = Some (36, 39)
  /\ FindIndex pSplit ("/u<john>" +:+ String dquote "knows") = None.
Proof. repeat split; vm_compute; reflexivity. Qed.

Lemma ParseTriple_panics_witness :
  NewTriple (Some bracket) (Some knows) (Some lit_v) = Ok t_bracket
  /\ FindIndex pSplit (TrimSpace (Triple_String t_bracket)) = Some (8, 11)
  /\ FindIndex oSplit (TrimSpace (Triple_String t_bracket)) = Some (4, 7)
  /\ ParseTriple (Triple_String t_bracket) rbuilder = Panic.
Proof.
  split; [reflexivity|]. split; [reflexivity|]. split; [reflexivity|].
  refine (ParseTriple_panics (C := collaborators) (Triple_String t_bracket) rbuilder
            (8, 11) (4, 7) eq_refl eq_refl _).
  cbn. lia.
Defined.

Lemma ParseTriple_split_error_witness :
  FindIndex oSplit (TrimSpace "  /u<john> is no triple ") = None
  /\ (forall i j, ~ Matches oSplit (TrimSpace "  /u<john> is no triple ") i j)
  /\ ParseTriple "  /u<john> is no triple " rbuilder = Err (ErrSplit "/u<john> is no triple").
Proof.
  assert (Hno : forall i j, ~ Matches oSplit (TrimSpace "  /u<john> is no triple ") i j)
    by (apply GoFacts.FindIndex_no_match; reflexivity).
  split; [reflexivity|]. split; [exact Hno|].
  exact (proj1 (ParseTriple_split_error (C := collaborators)
                  "  /u<john> is no triple " rbuilder)
           (or_intror Hno)).
Defined.

(** C5, as stated, fails on the line of the triple of [john], the
    predicate [twice] and the literal [v]: the subject pattern has two
    matches in it, one after the subject and one inside the predicate ID,
    and [ParseTriple] returns the triple. *)
Lemma split_counterexample :
  TrimSpace (Triple_String t_twice) = Triple_String t_twice
  /\ Matches pSplit (Triple_String t_twice) 7 10
  /\ Matches pSplit (Triple_String t_twice) 11 14
  /\ ParseTriple (Triple_String t_twice) rbuilder = Ok t_twice.
Proof.
  split; [reflexivity|]. split; [|split; [|reflexivity]].
  - exists "/u<john"%string, (String tab EmptyString), dquote,
      ("a> " +:+ String dquote ("b" +:+ String dquote ("@[]" +:+ String tab
         (String dquote ("v" +:+ String dquote "^^type:text"))))).
    repeat split; discriminate.
  - exists ("/u<john>" +:+ String tab (String dquote "a")), " "%string, dquote,
      ("b" +:+ String dquote ("@[]" +:+ String tab
         (String dquote ("v" +:+ String dquote "^^type:text")))).
    repeat split; discriminate.
Qed.

(** C3, as stated, fails on the triple of [john], the predicate [odd] and
    the literal [v]: it is a triple [NewTriple] accepts, each of its three
    parts is parsed back from its own text, and [ParseTriple] rejects its
    line, because the object pattern finds its first match inside the
    predicate. *)
Lemma roundtrip_counterexample :
  NewTriple (Some john) (Some odd) (Some lit_v) = Ok t_odd
  /\ node_Parse (node_String john) = inl john
  /\ predicate_Parse (predicate_String odd) = inl odd
  /\ ParseObject (Object_String lit_v) rbuilder
     = Ok lit_v
  /\ TrimSpace (Triple_String t_odd) = Triple_String t_odd
  /\ FindIndex oSplit (Triple_String t_odd) = Some (11, 14)
  /\ ParseTriple (Triple_String t_odd) rbuilder
     = Err (ErrParse PredicateRole (String dquote "a]")
              (ErrExternal ("predicate.Parse: malformed predicate " +:+ String dquote "a]"))).
Proof. repeat split; vm_compute; reflexivity. Qed.

Lemma roundtrip_witness :
  TrimSpace (Triple_String t_met) = Triple_String t_met
  /\ splittable (node_String john) (predicate_String met)
                (Object_String obj_mary)
  /\ ParseTriple (Triple_String t_met) rbuilder = Ok t_met.
Proof.
  assert (Hs : splittable (node_String john) (predicate_String met)
                          (Object_String obj_mary)).
  { unfold splittable. repeat split. exists "/"%char. split; reflexivity. }
  split; [reflexivity|]. split; [exact Hs|].
  exact (ParseTriple_String_roundtrip (C := collaborators) t_met rbuilder john met obj_mary
           eq_refl eq_refl eq_refl eq_refl Hs eq_refl eq_refl eq_refl).
Defined.

(** *** Statements *)

Lemma runtime_laws : @RuntimeLaws runtime.
Proof.
  split. intros D A I Inv view lt d HS Hd.
  exact (insertionSort_spec I Inv view lt HS d Hd).
Qed.

Lemma ready_start : ready (ResetWorkingGraphClause State_zero).
Proof.
  split; [apply wf_ResetWorkingGraphClause, wf_zero|].
  split; [constructor|discriminate].
Qed.

Lemma ready_commit (s : option RNode) (p : option (Predicate string))
    (o : option Object) (st : State) :
  ready st -> ready (commit s p o st).
Proof.
  intros (Hwf & Hnn & Hw). unfold commit, write_working, WorkingClause.
  destruct (workingClause (stmt st)) as [w|] eqn:Hwc; [|congruence].
  assert (Hwf' : wf (update_clause w (clause_with s p o) st))
    by (apply wf_update_clause; exact Hwf).
  split; [apply wf_AddWorkingGrpahClause; exact Hwf'|]. split.
  - apply no_nil_AddWorkingGrpahClause; [exact Hwf'| |].
    + apply no_nil_update_clause. exact Hnn.
    + cbn. rewrite Hwc. discriminate.
  - unfold AddWorkingGrpahClause.
    destruct (append _ _ _). cbn. discriminate.
Qed.

Lemma ready_sample : ready sample.
Proof. unfold sample. repeat apply ready_commit. apply ready_start. Qed.

(** The sample statement before and after the sort: the clauses, read
    through the statement's own pattern, have specificities 0, 3, 1, 2 in
    the order of commit and 3, 2, 1, 0 after the call. *)
Lemma sample_sorted :
  specificities (clauses_of sample (GraphPatternClauses sample)) = Some [0; 3; 1; 2]
  /\ match SortedGraphPatternClauses sample with
     | Some (r, st') =>
       r = GraphPatternClauses sample
       /\ specificities (clauses_of st' r) = Some [3; 2; 1; 0]
       /\ specificities (clauses_of st' (GraphPatternClauses st')) = Some [3; 2; 1; 0]
     | None => False
     end.
Proof. vm_compute. repeat split. Qed.

Lemma wf_commit (s : option RNode) (p : option (Predicate string))
    (o : option Object) (st : State) :
  wf st -> wf (commit s p o st).
Proof.
  intros H. unfold commit, write_working.
  destruct (WorkingClause st); apply wf_AddWorkingGrpahClause;
    [apply wf_update_clause|]; exact H.
Qed.

(** C8, as stated, fails on the statement [hasty], reached from a new
    statement by two commits, the first made before any working clause
    existed: its pattern holds a nil pointer and a clause, and
    [SortedGraphPatternClauses] panics when [Less] reads the specificity
    of the nil pointer. *)
Lemma descending_counterexample :
  wf hasty
  /\ elems (arrays hasty) (GraphPatternClauses hasty) = [None; Some 1%positive]
  /\ bySpecificity_Less (GraphPatternClauses hasty) hasty 1 0 = None
  /\ SortedGraphPatternClauses hasty = None.
Proof.
  split; [|repeat split; vm_compute; reflexivity].
  apply wf_commit, wf_AddWorkingGrpahClause, wf_zero.
Qed.

(** C10, as stated, fails on the statement [hasty3], three commits after
    a new statement: the call panics, and no pattern is read after it. *)
Lemma in_place_counterexample :
  wf hasty3
  /\ elems (arrays hasty3) (GraphPatternClauses hasty3)
     = [None; Some 1%positive; Some 2%positive]
  /\ SortedGraphPatternClauses hasty3 = None.
Proof.
  split; [|repeat split; vm_compute; reflexivity].
  apply wf_commit, wf_commit, wf_AddWorkingGrpahClause, wf_zero.
Qed.

Lemma SortedGraphPatternClauses_descending_witness :
  wf sample /\ no_nil_clause sample
  /\ exists r st' cs0 cs,
       SortedGraphPatternClauses sample = Some (r, st')
       /\ clauses_of sample (GraphPatternClauses sample) = Some cs0
       /\ clauses_of st' r = Some cs
       /\ cs ≡ₚ cs0
       /\ non_increasing cs
       /\ Forall (fun c => Specificity c = arms c /\ arms c <= 3) cs.
Proof.
  split; [exact (proj1 ready_sample)|]. split; [exact (proj1 (proj2 ready_sample))|].
  exact (@SortedGraphPatternClauses_descending collaborators runtime runtime_laws sample
           (proj1 ready_sample) (proj1 (proj2 ready_sample))).
Defined.

Lemma SortedGraphPatternClauses_in_place_witness :
  exists r st' cs0 cs,
    SortedGraphPatternClauses sample = Some (r, st')
    /\ r = GraphPatternClauses sample
    /\ GraphPatternClauses st' = r
    /\ clauses st' = clauses sample
    /\ clauses_of sample (GraphPatternClauses sample) = Some cs0
    /\ clauses_of st' (GraphPatternClauses st') = Some cs
    /\ cs ≡ₚ cs0
    /\ non_increasing cs
    /\ (~ non_increasing cs0 -> cs <> cs0).
Proof.
  exact (@SortedGraphPatternClauses_in_place collaborators runtime runtime_laws sample
           (proj1 ready_sample) (proj1 (proj2 ready_sample))).
Defined.

Lemma commit_isolation_witness :
  wf sample
  /\ exists w,
    WorkingClause (AddWorkingGrpahClause sample) = Some w
    /\ (Some w ∉ elems (arrays (AddWorkingGrpahClause sample))
                       (GraphPatternClauses (AddWorkingGrpahClause sample)))
    /\ Forall (fun x =>
                 deref (update_clause w (clause_with (Some mary) None None)
                                      (AddWorkingGrpahClause sample)) x
                 = deref (AddWorkingGrpahClause sample) x)
              (elems (arrays (AddWorkingGrpahClause sample))
                     (GraphPatternClauses (AddWorkingGrpahClause sample))).
Proof.
  split; [exact (proj1 ready_sample)|].
  destruct (commit_isolation (C := collaborators) (R := runtime) sample (clause_with (Some mary) None None) (proj1 ready_sample))
    as (w & Hw & Hnot & _ & _ & _ & Hall).
  exists w. split; [exact Hw|]. split; [exact Hnot|].
  eapply Forall_impl; [exact Hall|]. cbn. intros x [Hx _]. exact Hx.
Defined.

End Concrete.

Module ConcreteMore.
Import Go Triple Semantic Ref TripleFacts SemanticFacts TripleMore SemanticMore Concrete.

(** *** ParseTriple *)

Lemma ParseTriple_fields_witness :
  FindIndex pSplit (TrimSpace (Triple_String t_met)) = Some (7, 10)
  /\ FindIndex oSplit (TrimSpace (Triple_String t_met)) = Some (36, 39)
  /\ exists ss ws sp ws' so,
       TrimSpace (Triple_String t_met) = ss +:+ ws +:+ sp +:+ ws' +:+ so
       /\ last ss = Some ">"%char
       /\ first sp = Some dquote /\ last sp = Some "]"%char
       /\ (exists c, first so = Some c /\ closes oSplit c = true)
       /\ ws <> EmptyString /\ all_space ws = true
       /\ ws' <> EmptyString /\ all_space ws' = true
       /\ ParseTriple (Triple_String t_met) rbuilder = parse_fields ss sp so rbuilder.
Proof.
  split; [reflexivity|]. split; [reflexivity|].
  refine (ParseTriple_fields (C := collaborators) (Triple_String t_met) rbuilder
            (7, 10) (36, 39) eq_refl eq_refl _).
  cbn. lia.
Defined.

Lemma ParseTriple_well_formed_witness :
  ParseTriple (Triple_String t_met) rbuilder = Ok t_met
  /\ exists s p o, t_met = mkTriple (Some s) (Some p) (Some o) /\ exactly_one_of o.
Proof.
  split; [reflexivity|].
  exact (ParseTriple_well_formed (C := collaborators) (Triple_String t_met) rbuilder t_met
           eq_refl).
Defined.

(** *** GUID *)

(** A node and a literal that print the same have different GUIDs. *)
Lemma Object_GUID_inj_witness :
  held obj_mary = [VNode] /\ held lit_v = [VLiteral]
  /\ (Object_GUID obj_mary = Object_GUID lit_v
      <-> VNode = VLiteral /\ Object_String obj_mary = Object_String lit_v).
Proof.
  split; [reflexivity|]. split; [reflexivity|].
  exact (Object_GUID_inj (C := collaborators) obj_mary lit_v VNode VLiteral
           eq_refl eq_refl).
Defined.

(** *** Reify *)

Lemma Reify_hollow_object_witness :
  held hollow = []
  /\ (Reify t_hollow w0).1
     = Ok ([Some t_hollow;
            Some (mkTriple (Some blank1) (Some (mkPredicate "_subject" None))
                           (Some (NewNodeObject (Some john))));
            Some (mkTriple (Some blank1) (Some (mkPredicate "_predicate" None))
                           (Some (NewPredicateObject (Some knows))));
            None],
           blank1).
Proof.
  split; [reflexivity|].
  exact (Reify_hollow_object (C := collaborators) t_hollow w0 hollow
           (mkPredicate "_subject" None) (mkPredicate "_predicate" None)
           eq_refl eq_refl eq_refl eq_refl).
Defined.

(** *** Statements *)

Lemma ready_commit_with (f : GraphClause -> GraphClause) (st : State) :
  ready st -> ready (commit_with f st).
Proof.
  intros (Hwf & Hnn & Hw). unfold commit_with, write_working, WorkingClause.
  destruct (workingClause (stmt st)) as [w|] eqn:Hwc; [|congruence].
  assert (Hwf' : wf (update_clause w f st))
    by (apply wf_update_clause; exact Hwf).
  split; [apply wf_AddWorkingGrpahClause; exact Hwf'|]. split.
  - apply no_nil_AddWorkingGrpahClause; [exact Hwf'| |].
    + apply no_nil_update_clause. exact Hnn.
    + cbn. rewrite Hwc. discriminate.
  - unfold AddWorkingGrpahClause.
    destruct (append _ _ _). cbn. discriminate.
Qed.

Lemma ready_bound : ready bound.
Proof. unfold bound. repeat apply ready_commit_with. apply ready_start. Qed.

Lemma wf_pending : wf pending.
Proof.
  unfold pending, write_working. cbn.
  apply wf_update_clause, wf_ResetWorkingGraphClause, wf_zero.
Qed.

(** The bindings of the sample: each variable twice, and no entry for
    the predicate ID nor for the empty name. *)
Example Bindings_bound :
  match Bindings bound with
  | Some bs =>
    bs !! "?x"%string = Some 2%Z /\ bs !! "?y"%string = Some 2%Z
    /\ bs !! "?p"%string = Some 2%Z /\ bs !! "knows"%string = None
    /\ bs !! EmptyString = None
  | None => False
  end.
Proof. vm_compute. repeat split. Qed.

Lemma Bindings_count_witness :
  clauses_of bound (GraphPatternClauses bound) = Some bound_clauses
  /\ exists bs,
       Bindings bound = Some bs
       /\ bs !! EmptyString = None
       /\ forall name, name <> EmptyString ->
            bs !! name = match occurrences name bound_clauses with
                         | 0 => None
                         | S n => Some (Z.of_nat (S n))
                         end.
Proof.
  assert (H : clauses_of bound (GraphPatternClauses bound) = Some bound_clauses)
    by (vm_compute; reflexivity).
  split; [exact H|].
  refine (Bindings_count (C := collaborators) bound bound_clauses H _).
  cbn. lia.
Defined.

Lemma Bindings_sorted_witness :
  wf bound /\ no_nil_clause bound
  /\ exists r st' bs,
       SortedGraphPatternClauses bound = Some (r, st')
       /\ Bindings bound = Some bs
       /\ Bindings st' = Some bs.
Proof.
  split; [exact (proj1 ready_bound)|]. split; [exact (proj1 (proj2 ready_bound))|].
  exact (@Bindings_sorted collaborators runtime runtime_laws bound
           (proj1 ready_bound) (proj1 (proj2 ready_bound))).
Defined.

(** A commit on a new statement, before any working clause was made. *)
Lemma Bindings_panics_witness :
  WorkingClause State_zero = None
  /\ Bindings (AddWorkingGrpahClause State_zero) = None.
Proof.
  split; [reflexivity|].
  exact (proj2 (Bindings_panics (C := collaborators) (R := runtime) State_zero wf_zero)
           eq_refl).
Defined.

(** Writing the subject, predicate and object of the first clause. *)
Lemma Bindings_update_clause_witness :
  Bindings (update_clause 1%positive (clause_with (Some john) (Some knows) None) bound)
  = Bindings bound.
Proof.
  refine (Bindings_update_clause (C := collaborators) bound 1%positive
            (clause_with (Some john) (Some knows) None) _).
  intros c. reflexivity.
Defined.

Lemma AddWorkingGrpahClause_appends_witness :
  WorkingClause pending = Some 1%positive
  /\ clauses_of (AddWorkingGrpahClause pending)
                (GraphPatternClauses (AddWorkingGrpahClause pending))
     = Some ([] ++ [clause_bound "?x" "?p" "?y" "knows" GraphClause_zero])
  /\ deref (AddWorkingGrpahClause pending) (WorkingClause (AddWorkingGrpahClause pending))
     = Some GraphClause_zero.
Proof.
  split; [reflexivity|].
  exact (AddWorkingGrpahClause_appends (C := collaborators) (R := runtime) pending
           1%positive (clause_bound "?x" "?p" "?y" "knows" GraphClause_zero) []
           wf_pending eq_refl eq_refl eq_refl).
Defined.

(** A clause written and then reset is not the one the next commit
    appends. *)
Lemma ResetWorkingGraphClause_discards_witness :
  clauses_of pending (GraphPatternClauses pending) = Some []
  /\ clauses_of (AddWorkingGrpahClause (ResetWorkingGraphClause pending))
                (GraphPatternClauses (AddWorkingGrpahClause (ResetWorkingGraphClause pending)))
     = Some ([] ++ [GraphClause_zero])
  /\ deref (AddWorkingGrpahClause (ResetWorkingGraphClause pending)) (Some 1%positive)
     = Some (clause_bound "?x" "?p" "?y" "knows" GraphClause_zero).
Proof.
  split; [reflexivity|].
  destruct (ResetWorkingGraphClause_discards (C := collaborators) (R := runtime) pending []
              wf_pending eq_refl) as [H1 H2].
  split; [exact H1|].
  exact (proj2 (H2 1%positive (clause_bound "?x" "?p" "?y" "knows" GraphClause_zero)
                   eq_refl eq_refl)).
Defined.

(** The slice of the sample, read after one more commit. *)
Lemma AddWorkingGrpahClause_keeps_slices_witness :
  slice_ok (arrays sample) (GraphPatternClauses sample)
  /\ elems (arrays (AddWorkingGrpahClause sample)) (GraphPatternClauses sample)
     = elems (arrays sample) (GraphPatternClauses sample).
Proof.
  split; [exact (proj1 (proj1 ready_sample))|].
  refine (AddWorkingGrpahClause_keeps_slices (C := collaborators) (R := runtime) sample
            (GraphPatternClauses sample) (proj1 ready_sample)
            (proj1 (proj1 ready_sample)) _).
  intros _. apply Nat.le_refl.
Defined.

End ConcreteMore.
